(** * Game-state engine of car_game_enhanced.py

    A shallow embedding of the simulation part of [main] in
    src/car_game_enhanced.py: the per-frame loop body (one tick) over the
    session dictionary [s] and the loop locals [cam_tick] and [w].
    Drawing, fonts and the camera image itself are left out; the camera
    delivers, per frame, whether a frame was read and the hand position the
    detector reports.

    Numbers.  Python ints are [Z]; [//] and [%] with a positive divisor are
    [Z.div] and [Z.modulo].  Two float quantities only ever hold multiples of
    1/2: [enemy_spd] (5.0, then +0.5 steps, min with 18.0) and the enemy
    top-y (-84 plus sums of speeds).  binary64 holds these exactly, so they
    are stored exactly as integers counting half pixels ([enemy_spd = 10]
    means 5.0).  The car x and the scroll offset are binary64 values: a
    rational [Q] that every float operation producing it rounds to the
    nearest double ([round64]).  The particle kinematics, which only feed
    the drawing, are modelled as exact rationals. *)

From Stdlib Require Import ZArith QArith Qround Qpower Qabs List Bool Lia Lqa Sorted.
Import ListNotations.

Open Scope Z_scope.

(** ** Layout constants *)

Definition WIN_W : Z := 800.
Definition WIN_H : Z := 600.
Definition ROAD_L : Z := 80.
Definition ROAD_R : Z := 720.
Definition ROAD_W : Z := ROAD_R - ROAD_L.
Definition LANE_COUNT : Z := 3.
Definition LANE_W : Z := ROAD_W / LANE_COUNT.
Definition LANE_X : list Z :=
  map (fun i => ROAD_L + LANE_W * i + LANE_W / 2) [0; 1; 2].

Definition CAR_W : Z := 52.
Definition CAR_H : Z := 84.
Definition ENEMY_W : Z := 52.
Definition ENEMY_H : Z := 84.

Definition FPS : Z := 60.
Definition DASH_LEN : Z := 40.
Definition DASH_GAP : Z := 30.
Definition MAX_ENEMIES : Z := 12.
(** [MAX_SPEED = 18.0], in half pixels. *)
Definition MAX_SPEED : Z := 36.
Definition CAM_SKIP : Z := 2.

Definition color : Type := (Z * Z * Z)%type.
Definition palette : Type := (color * color)%type.

Definition ENEMY_PALETTES : list palette :=
  [ ((220, 50, 50), (140, 20, 20));
    ((255, 140, 0), (180, 80, 0));
    ((160, 50, 220), (100, 20, 150));
    ((50, 200, 100), (20, 130, 50));
    ((200, 200, 50), (130, 130, 10)) ].

(** [LANE_X[l]]; every index used by the code is a lane in 0..2. *)
Definition lane_x (l : Z) : Z := nth (Z.to_nat l) LANE_X 0.

(** ** binary64 arithmetic

    A double is held as the rational it stands for.  [round64 q] is the
    double nearest to [q], ties to the even significand: with [e] the
    binary exponent of [|q|] ([2^e <= |q| < 2^(e+1)]), [|q|] is rounded to
    a multiple of [2^k], [k = max(e - 52, -1074)] (53 significant bits, and
    the fixed spacing [2^-1074] of the subnormals).  Overflow to infinity is
    not modelled: every value below stays far under [2^1023]. *)
Definition pow2 (k : Z) : Q := Qpower (2 # 1) k.

(** [floor(log2 q)] for [q > 0]. *)
Definition flog2 (q : Q) : Z :=
  let e0 := Z.log2 (Qnum q) - Z.log2 (Zpos (Qden q)) in
  if Qle_bool (pow2 e0) q then e0 else e0 - 1.

(** The integer nearest to [r], ties to even. *)
Definition rne (r : Q) : Z :=
  let f := Qfloor r in
  match Qcompare (r - inject_Z f) (1 # 2) with
  | Lt => f
  | Gt => f + 1
  | Eq => if Z.even f then f else f + 1
  end.

Definition qexp (a : Q) : Z := Z.max (flog2 a - 52) (-1074).

(** Rounding of a positive [a]. *)
Definition rpos (a : Q) : Q :=
  inject_Z (rne (a * pow2 (- qexp a))) * pow2 (qexp a).

Definition round64 (q : Q) : Q :=
  match Qcompare q 0 with
  | Eq => 0
  | Gt => Qred (rpos q)
  | Lt => Qred (- rpos (- q))
  end.


(** ** Helpers *)

(** [lerp(a, b, t)] on floats: [a + (b - a) * t], each operation rounded. *)
Definition lerp (a b t : Q) : Q := round64 (a + round64 (round64 (b - a) * t)).

(** [int(q)] on a float: truncation toward zero. *)
Definition int_of_Q (q : Q) : Z := Z.quot (Qnum q) (Zpos (Qden q)).

(** [int(y)] for a float held in half pixels. *)
Definition int_of_half (h : Z) : Z := Z.quot h 2.

(** Python's float [a % m]: C's [fmod(a, m)], which is exact
    ([a - m * trunc(a / m)]); a nonzero remainder whose sign differs from
    that of [m] is moved by a rounded [+ m]. *)
Definition pymod (a m : Q) : Q :=
  let r := (a - m * inject_Z (int_of_Q (a / m)))%Q in
  if Qeq_bool r 0 then 0
  else if xorb (Qle_bool 0 r) (Qle_bool 0 m) then round64 (r + m) else r.

(** The float literal [0.6]. *)
Definition c06 : Q := round64 (3 # 5).

(** [clamp(v, lo, hi)] on ints. *)
Definition clamp (v lo hi : Z) : Z := Z.max lo (Z.min hi v).

(** [hand_lane(hand_x, frame_w)]: with [thirds = frame_w / 3], the test
    [hand_x < thirds] on an int [hand_x] is [3 * hand_x < frame_w], and
    [hand_x < 2 * thirds] is [3 * hand_x < 2 * frame_w]. *)
Definition hand_lane (hand_x : option Z) (frame_w : Z) : Z :=
  match hand_x with
  | None => 1
  | Some hx =>
      if 3 * hx <? frame_w then 0
      else if 3 * hx <? 2 * frame_w then 1
      else 2
  end.

(** ** pygame.Rect and [colliderect]

    Two rectangles collide when they overlap on both axes; shared edges do
    not count. *)
Record rect := mkRect { rx : Z; ry : Z; rw : Z; rh : Z }.

Definition colliderect (a b : rect) : bool :=
  (rx a <? rx b + rw b) && (rx b <? rx a + rw a) &&
  (ry a <? ry b + rh b) && (ry b <? ry a + rh a).

(** ** Particles *)

Record particle := mkParticle {
  px : Q; py : Q; pvx : Q; pvy : Q;
  life : Z; max_life : Z;
  pcolor : color; psize : Z }.

(** The random draws of one [Particle(x, y, c)] and of the [random.choice]
    that picks [c]: the colour index among the four choices, the velocity
    ([cos(angle)*speed], [sin(angle)*speed]) as it comes out, the lifetime
    [random.randint(25, 50)] and the size [random.randint(3, 8)]. *)
Record pdraw := mkDraw {
  d_color : nat; d_vx : Q; d_vy : Q; d_life : Z; d_size : Z }.

Definition valid_pdraw (d : pdraw) : Prop :=
  (d_color d < 4)%nat /\ 25 <= d_life d <= 50 /\ 3 <= d_size d <= 8.

(** [Particle.__init__] *)
Definition new_particle (x y : Z) (c : color) (d : pdraw) : particle :=
  {| px := inject_Z x; py := inject_Z y; pvx := d_vx d; pvy := d_vy d;
     life := d_life d; max_life := d_life d; pcolor := c; psize := d_size d |}.

(** [Particle.update] *)
Definition update (p : particle) : particle :=
  {| px := Qred (px p + pvx p); py := Qred (py p + pvy p); pvx := pvx p;
     pvy := Qred (pvy p + (1 # 4));
     life := life p - 1; max_life := max_life p;
     pcolor := pcolor p; psize := psize p |}.

(** [explode(particles, x, y, palette)]: the [k]-th of the 40 particles uses
    the draws [draw k]. *)
Definition explode (ps : list particle) (x y : Z) (pal : palette)
    (draw : nat -> pdraw) : list particle :=
  ps ++ map (fun k =>
               let d := draw k in
               let c := nth (d_color d)
                            [fst pal; snd pal; (255, 255, 200); (255, 180, 0)]
                            (fst pal) in
               new_particle x y c d)
            (seq 0 40).

(** The particle phase at the end of every frame:
    [for p in s['particles']: p.update()] then
    [s['particles'] = [p for p in s['particles'] if p.life > 0]]. *)
Definition particles_step (ps : list particle) : list particle :=
  filter (fun p => 0 <? life p) (map update ps).

(** ** Enemies and the session dictionary *)

(** An enemy [[cx, y, palette]]; [ey] in half pixels. *)
Record enemy := mkEnemy { ecx : Z; ey : Z; epal : palette }.

Definition set_ey (e : enemy) (y : Z) : enemy :=
  {| ecx := ecx e; ey := y; epal := epal e |}.

(** The dictionary returned by [reset_state()], without [cam_frame] (the
    camera picture). *)
Record session := mkSession {
  car_lane : Z; car_x_px : Q; car_y : Z;
  score : Z; lives : Z;
  enemies : list enemy;
  enemy_spd : Z;
  spawn_cd : Z;
  game_over : bool; go_timer : Z;
  tick : Z; dash_off : Q;
  hand_x : option Z;
  particles : list particle }.

(** [reset_state()] *)
Definition reset_state : session :=
  {| car_lane := 1; car_x_px := inject_Z (lane_x 1 - CAR_W / 2);
     car_y := WIN_H - CAR_H - 24;
     score := 0; lives := 3; enemies := [];
     enemy_spd := 10; spawn_cd := 70;
     game_over := false; go_timer := 0;
     tick := 0; dash_off := 0; hand_x := None; particles := [] |}.

(** Item assignments [s[key] = v]. *)
Section Setters.
Variable s : session.

Definition set_car (l : Z) (x : Q) : session :=
  {| car_lane := l; car_x_px := x; car_y := car_y s; score := score s;
     lives := lives s; enemies := enemies s; enemy_spd := enemy_spd s;
     spawn_cd := spawn_cd s; game_over := game_over s; go_timer := go_timer s;
     tick := tick s; dash_off := dash_off s; hand_x := hand_x s;
     particles := particles s |}.

Definition set_score (v : Z) : session :=
  {| car_lane := car_lane s; car_x_px := car_x_px s; car_y := car_y s;
     score := v; lives := lives s; enemies := enemies s;
     enemy_spd := enemy_spd s; spawn_cd := spawn_cd s;
     game_over := game_over s; go_timer := go_timer s; tick := tick s;
     dash_off := dash_off s; hand_x := hand_x s; particles := particles s |}.

Definition set_lives (v : Z) : session :=
  {| car_lane := car_lane s; car_x_px := car_x_px s; car_y := car_y s;
     score := score s; lives := v; enemies := enemies s;
     enemy_spd := enemy_spd s; spawn_cd := spawn_cd s;
     game_over := game_over s; go_timer := go_timer s; tick := tick s;
     dash_off := dash_off s; hand_x := hand_x s; particles := particles s |}.

Definition set_enemies (v : list enemy) : session :=
  {| car_lane := car_lane s; car_x_px := car_x_px s; car_y := car_y s;
     score := score s; lives := lives s; enemies := v;
     enemy_spd := enemy_spd s; spawn_cd := spawn_cd s;
     game_over := game_over s; go_timer := go_timer s; tick := tick s;
     dash_off := dash_off s; hand_x := hand_x s; particles := particles s |}.

Definition set_spd (v : Z) : session :=
  {| car_lane := car_lane s; car_x_px := car_x_px s; car_y := car_y s;
     score := score s; lives := lives s; enemies := enemies s;
     enemy_spd := v; spawn_cd := spawn_cd s;
     game_over := game_over s; go_timer := go_timer s; tick := tick s;
     dash_off := dash_off s; hand_x := hand_x s; particles := particles s |}.

Definition set_spawn_cd (v : Z) : session :=
  {| car_lane := car_lane s; car_x_px := car_x_px s; car_y := car_y s;
     score := score s; lives := lives s; enemies := enemies s;
     enemy_spd := enemy_spd s; spawn_cd := v;
     game_over := game_over s; go_timer := go_timer s; tick := tick s;
     dash_off := dash_off s; hand_x := hand_x s; particles := particles s |}.

Definition set_game_over (g : bool) (t : Z) : session :=
  {| car_lane := car_lane s; car_x_px := car_x_px s; car_y := car_y s;
     score := score s; lives := lives s; enemies := enemies s;
     enemy_spd := enemy_spd s; spawn_cd := spawn_cd s;
     game_over := g; go_timer := t; tick := tick s;
     dash_off := dash_off s; hand_x := hand_x s; particles := particles s |}.

Definition set_tick (v : Z) : session :=
  {| car_lane := car_lane s; car_x_px := car_x_px s; car_y := car_y s;
     score := score s; lives := lives s; enemies := enemies s;
     enemy_spd := enemy_spd s; spawn_cd := spawn_cd s;
     game_over := game_over s; go_timer := go_timer s; tick := v;
     dash_off := dash_off s; hand_x := hand_x s; particles := particles s |}.

Definition set_dash_off (v : Q) : session :=
  {| car_lane := car_lane s; car_x_px := car_x_px s; car_y := car_y s;
     score := score s; lives := lives s; enemies := enemies s;
     enemy_spd := enemy_spd s; spawn_cd := spawn_cd s;
     game_over := game_over s; go_timer := go_timer s; tick := tick s;
     dash_off := v; hand_x := hand_x s; particles := particles s |}.

Definition set_hand_x (v : option Z) : session :=
  {| car_lane := car_lane s; car_x_px := car_x_px s; car_y := car_y s;
     score := score s; lives := lives s; enemies := enemies s;
     enemy_spd := enemy_spd s; spawn_cd := spawn_cd s;
     game_over := game_over s; go_timer := go_timer s; tick := tick s;
     dash_off := dash_off s; hand_x := v; particles := particles s |}.

Definition set_particles (v : list particle) : session :=
  {| car_lane := car_lane s; car_x_px := car_x_px s; car_y := car_y s;
     score := score s; lives := lives s; enemies := enemies s;
     enemy_spd := enemy_spd s; spawn_cd := spawn_cd s;
     game_over := game_over s; go_timer := go_timer s; tick := tick s;
     dash_off := dash_off s; hand_x := hand_x s; particles := v |}.

End Setters.

(** ** One frame of the main loop *)

(** What the outside world supplies to one frame: the camera read
    ([None] when [cap.read()] fails, else the frame width and the hand
    x-coordinate the detector reports, if any) and the results of the
    [random] calls of the game logic: [random.randint(0, LANE_COUNT-1)],
    the index of [random.choice(ENEMY_PALETTES)], [random.randint(-8, 8)],
    and the particle draws of the explosion of the [i]-th enemy. *)
Record input := mkInput {
  in_frame : option (Z * option Z);
  in_lane : Z; in_pal : nat; in_jitter : Z;
  in_boom : nat -> nat -> pdraw }.

Definition valid_input (i : input) : Prop :=
  0 <= in_lane i <= LANE_COUNT - 1 /\ (in_pal i < 5)%nat /\
  -8 <= in_jitter i <= 8 /\ (forall n k, valid_pdraw (in_boom i n k)).

(** The loop locals of [main] that the game reads: [s], [cam_tick], [w]. *)
Record world := mkWorld { ses : session; cam_tick : Z; frame_w : Z }.

(** Lane selection and smooth slide, lines 303-306. *)
Definition steer (s : session) (w : Z) : session :=
  let target_lane := hand_lane (hand_x s) w in
  let target_x := inject_Z (lane_x target_lane - CAR_W / 2) in
  set_car s target_lane (lerp (car_x_px s) target_x (1 # 4)).

Definition car_rect (s : session) : rect :=
  mkRect (int_of_Q (car_x_px s)) (car_y s) CAR_W CAR_H.

(** Enemy spawning, lines 311-317. *)
Definition spawn (s : session) (i : input) : session :=
  let s1 := set_spawn_cd s (spawn_cd s - 1) in
  let base_interval := Z.max 25 (70 - score s1 / 5) in
  if (spawn_cd s1 <=? 0) && (Z.of_nat (length (enemies s1)) <? MAX_ENEMIES)
  then
    let pal := nth (in_pal i) ENEMY_PALETTES (nth 0 ENEMY_PALETTES ((0,0,0),(0,0,0))) in
    let s2 := set_enemies s1 (enemies s1 ++ [mkEnemy (lane_x (in_lane i)) (- 2 * ENEMY_H) pal]) in
    set_spawn_cd s2 (base_interval + in_jitter i)
  else s1.

(** The body of [for i, (cx, ey, pal) in enumerate(s['enemies'])], lines
    321-339: [s] is the session before enemy [i]; the result is the session
    after it, the enemy with its new y, and whether [i] goes to
    [to_remove]. *)
Definition enemy_body (car : rect) (boom : nat -> nat -> pdraw) (i : nat)
    (e : enemy) (s : session) : session * enemy * bool :=
  let y := ey e + enemy_spd s in
  let e' := set_ey e y in
  let erect := mkRect (ecx e - ENEMY_W / 2) (int_of_half y) ENEMY_W ENEMY_H in
  if colliderect car erect then
    let s1 := set_particles s (explode (particles s) (ecx e)
                                 (int_of_half (y + 2 * (ENEMY_H / 2))) (epal e) (boom i)) in
    let s2 := set_lives s1 (lives s1 - 1) in
    let s3 := if lives s2 <=? 0 then set_game_over s2 true (FPS * 2) else s2 in
    (s3, e', true)
  else if 2 * WIN_H <? y then
    let s1 := set_score s (score s + 1) in
    let s2 := if score s1 mod 8 =? 0
              then set_spd s1 (Z.min MAX_SPEED (enemy_spd s1 + 1)) else s1 in
    (s2, e', true)
  else (s, e', false).

(** The whole loop: the session after it, the enemies with their new y
    (written back by [s['enemies'][i][1] = ey]) and [to_remove]. *)
Fixpoint enemy_loop (car : rect) (boom : nat -> nat -> pdraw) (i : nat)
    (es : list enemy) (s : session) : session * list enemy * list nat :=
  match es with
  | [] => (s, [], [])
  | e :: es' =>
      let '(s1, e', r) := enemy_body car boom i e s in
      let '(s2, es'', tr) := enemy_loop car boom (S i) es' s1 in
      (s2, e' :: es'', if r then i :: tr else tr)
  end.

(** [del l[i]] *)
Definition delete_at {A} (i : nat) (l : list A) : list A :=
  firstn i l ++ skipn (S i) l.

(** [for i in reversed(sorted(set(to_remove))): del s['enemies'][i]].
    [to_remove] is built in increasing order without repetition, so
    [sorted(set(to_remove))] is [to_remove] itself. *)
Definition remove_indices {A} (to_remove : list nat) (l : list A) : list A :=
  fold_left (fun acc i => delete_at i acc) (rev to_remove) l.

(** The [if not s['game_over']] branch, lines 303-342. *)
Definition play_logic (s : session) (w : Z) (i : input) : session :=
  let s1 := steer s w in
  let car := car_rect s1 in
  let s2 := spawn s1 i in
  let '(s3, es, to_remove) := enemy_loop car (in_boom i) 0 (enemies s2) s2 in
  set_enemies s3 (remove_indices to_remove es).

(** The [else] branch, lines 373-376. *)
Definition over_logic (s : session) : session :=
  if 0 <? go_timer s then set_game_over s (game_over s) (go_timer s - 1)
  else match hand_x s with
       | Some _ => reset_state
       | None => s
       end.

(** Camera step, lines 257-275. *)
Definition camera (w : world) (i : input) : world :=
  let ct := cam_tick w + 1 in
  match in_frame i with
  | Some (fw, hx) =>
      if ct mod CAM_SKIP =? 0
      then mkWorld (set_hand_x (ses w) hx) ct fw
      else mkWorld (ses w) ct (frame_w w)
  | None => mkWorld (ses w) ct (frame_w w)
  end.

(** Scrolling offset, lines 281-282:
    [(s['dash_off'] + s['enemy_spd'] * 0.6) % (DASH_LEN + DASH_GAP)] in
    floats ([enemy_spd / 2] is the float speed). *)
Definition scroll (s : session) : session :=
  let step := inject_Z (DASH_LEN + DASH_GAP) in
  set_dash_off s (pymod (round64 (dash_off s + round64 (inject_Z (enemy_spd s) / 2 * c06))) step).

(** One iteration of [while running]. *)
Definition frame (w : world) (i : input) : world :=
  let s0 := set_tick (ses w) (tick (ses w) + 1) in
  let w1 := camera (mkWorld s0 (cam_tick w) (frame_w w)) i in
  let s1 := scroll (ses w1) in
  let s2 := if negb (game_over s1) then play_logic s1 (frame_w w1) i
            else over_logic s1 in
  mkWorld (set_particles s2 (particles_step (particles s2))) (cam_tick w1) (frame_w w1).

(** The start of [main]: [s = reset_state()], [cam_tick = 0] and [w] the
    width of the first camera frame. *)
Definition init_world (w0 : Z) : world := mkWorld reset_state 0 w0.

Inductive reachable : world -> Prop :=
  | reach_init : forall w0, reachable (init_world w0)
  | reach_frame : forall w i, reachable w -> valid_input i ->
      reachable (frame w i).

(** Running a script of frames. *)
Fixpoint run (w : world) (ins : list input) : world :=
  match ins with
  | [] => w
  | i :: ins' => run (frame w i) ins'
  end.

(** The camera step of a frame, after [s['tick'] += 1]. *)
Definition cam_world (w : world) (i : input) : world :=
  camera (mkWorld (set_tick (ses w) (tick (ses w) + 1)) (cam_tick w) (frame_w w)) i.

(** The session the game logic of a frame starts from. *)
Definition pre_logic (w : world) (i : input) : session :=
  scroll (ses (cam_world w i)).

(** Whether the frame takes the branch [s = reset_state()]. *)
Definition is_restart (w : world) (i : input) : bool :=
  let s := pre_logic w i in
  game_over s && negb (0 <? go_timer s) &&
  match hand_x s with Some _ => true | None => false end.

(** Whether enemy [e], moved down by [spd] half pixels, leaves the window
    without hitting the car [car]: the [elif ey > WIN_H] branch of the
    enemy loop, the one that adds a point. *)
Definition retires (car : rect) (spd : Z) (e : enemy) : bool :=
  let y := ey e + spd in
  negb (colliderect car (mkRect (ecx e - ENEMY_W / 2) (int_of_half y) ENEMY_W ENEMY_H))
  && (2 * WIN_H <? y).

(** How many of the enemies [es] retire off the bottom at speed [spd]. *)
Definition retired (car : rect) (spd : Z) (es : list enemy) : Z :=
  Z.of_nat (length (filter (retires car spd) es)).


(** Frame inputs for concrete runs: the camera reads a 640 pixel wide
    frame, enemies spawn in lane [lane] with the first palette and the
    shortest interval, and every explosion draws the same particles. *)
Definition calm_draw : pdraw := mkDraw 0 0 0 30 4.

Definition script_input (hand : option Z) (lane : Z) : input :=
  mkInput (Some (640, hand)) lane 0 (-8) (fun _ _ => calm_draw).

(** ** Proof infrastructure *)

(** *** binary64 rounding *)

Lemma pow2_pos k : (0 < pow2 k)%Q.
Proof. apply Qpower_0_lt. unfold Qlt; simpl; lia. Qed.

Lemma pow2_add a b : (pow2 (a + b) == pow2 a * pow2 b)%Q.
Proof. apply Qpower_plus. intro H. compute in H. discriminate. Qed.

Lemma pow2_Z n : 0 <= n -> (pow2 n == inject_Z (2 ^ n))%Q.
Proof. intros H. unfold pow2. rewrite (Zpower_Qpower 2 n H). reflexivity. Qed.

Lemma pow2_lt a b : a < b -> (pow2 a < pow2 b)%Q.
Proof. intros H. apply Qpower_lt_compat_l; [exact H|unfold Qlt; simpl; lia]. Qed.

Lemma pow2_le a b : a <= b -> (pow2 a <= pow2 b)%Q.
Proof. intros H. apply Qpower_le_compat_l; [exact H|unfold Qle; simpl; lia]. Qed.

Lemma pow2_lt_inv a b : (pow2 a < pow2 b)%Q -> a < b.
Proof. intros H. apply (Qpower_lt_compat_l_inv (2#1)); [exact H|unfold Qlt; simpl; lia]. Qed.

Lemma pow2_le_inv a b : (pow2 a <= pow2 b)%Q -> a <= b.
Proof. intros H. apply (Qpower_le_compat_l_inv (2#1)); [exact H|unfold Qlt; simpl; lia]. Qed.

Lemma pow2_0 : (pow2 0 == 1)%Q.
Proof. reflexivity. Qed.

Lemma pow2_opp k : (pow2 k * pow2 (- k) == 1)%Q.
Proof. rewrite <- pow2_add. replace (k + - k) with 0 by lia. reflexivity. Qed.

Lemma Q_num_den (q : Q) : (q * inject_Z (Zpos (Qden q)) == inject_Z (Qnum q))%Q.
Proof. destruct q as [n d]. unfold Qeq, Qmult, inject_Z; simpl. lia. Qed.

Lemma flog2_spec q :
  (0 < q)%Q -> (pow2 (flog2 q) <= q < pow2 (flog2 q + 1))%Q.
Proof.
  intros Hq.
  assert (Hn : 0 < Qnum q) by (destruct q as [n d]; unfold Qlt in Hq; simpl in *; lia).
  set (n := Qnum q) in *. set (d := Zpos (Qden q)) in *.
  assert (Hd : 0 < d) by reflexivity.
  pose proof (Z.log2_spec n Hn) as [Hn1 Hn2].
  pose proof (Z.log2_spec d Hd) as [Hd1 Hd2].
  set (la := Z.log2 n) in *. set (ld := Z.log2 d) in *.
  assert (Hla : 0 <= la) by apply Z.log2_nonneg.
  assert (Hld : 0 <= ld) by apply Z.log2_nonneg.
  pose proof (Q_num_den q) as Hqd. fold n d in Hqd.
  assert (HdQ : (0 < inject_Z d)%Q) by (unfold Qlt; simpl; lia).
  assert (A : (pow2 (la - ld - 1) <= q)%Q).
  { apply (Qmult_le_r _ _ (inject_Z d) HdQ). rewrite Hqd.
    apply Qle_trans with (pow2 (la - ld - 1) * pow2 (Z.succ ld))%Q.
    - apply Qmult_le_l; [apply pow2_pos|]. rewrite pow2_Z by lia.
      rewrite <- Zle_Qle. lia.
    - rewrite <- pow2_add. replace (la - ld - 1 + Z.succ ld) with la by lia.
      rewrite pow2_Z by lia. rewrite <- Zle_Qle. lia. }
  assert (B : (q < pow2 (la - ld + 1))%Q).
  { apply (Qmult_lt_r _ _ (inject_Z d) HdQ). rewrite Hqd.
    apply Qlt_le_trans with (pow2 (la - ld + 1) * pow2 ld)%Q.
    - rewrite <- pow2_add. replace (la - ld + 1 + ld) with (Z.succ la) by lia.
      rewrite pow2_Z by lia. rewrite <- Zlt_Qlt. lia.
    - apply Qmult_le_l; [apply pow2_pos|]. rewrite pow2_Z by lia.
      rewrite <- Zle_Qle. lia. }
  unfold flog2. fold n d la ld.
  destruct (Qle_bool (pow2 (la - ld)) q) eqn:E.
  - apply Qle_bool_iff in E. split; auto.
  - assert (E' : (q < pow2 (la - ld))%Q).
    { apply Qnot_le_lt. intro H. apply Qle_bool_iff in H. congruence. }
    split; [exact A|]. replace (la - ld - 1 + 1) with (la - ld) by lia. exact E'.
Qed.

Lemma flog2_unique q e :
  (pow2 e <= q < pow2 (e + 1))%Q -> flog2 q = e.
Proof.
  intros [H1 H2].
  assert (Hq : (0 < q)%Q) by (apply Qlt_le_trans with (pow2 e); [apply pow2_pos|exact H1]).
  destruct (flog2_spec q Hq) as [F1 F2].
  assert (A : e < flog2 q + 1) by (apply pow2_lt_inv; apply Qle_lt_trans with q; auto).
  assert (B : flog2 q < e + 1) by (apply pow2_lt_inv; apply Qle_lt_trans with q; auto).
  lia.
Qed.

(** *** Rounding to the nearest integer, ties to even *)

Lemma rne_cases r : rne r = Qfloor r \/ rne r = Qfloor r + 1.
Proof.
  unfold rne. destruct (_ ?= _)%Q; auto. destruct (Z.even (Qfloor r)); auto.
Qed.

Lemma rne_bounds r :
  (r - (1 # 2) <= inject_Z (rne r) <= r + (1 # 2))%Q.
Proof.
  pose proof (Qfloor_le r) as F1. pose proof (Qlt_floor r) as F2.
  rewrite inject_Z_plus in F2.
  unfold rne. set (f := Qfloor r) in *. clearbody f.
  change (inject_Z 1) with 1%Q in F2.
  destruct (Qcompare_spec (r - inject_Z f) (1 # 2)) as [H|H|H].
  - assert (Ha : (r - inject_Z f <= 1 # 2)%Q) by (rewrite H; apply Qle_refl).
    assert (Hb : (1 # 2 <= r - inject_Z f)%Q) by (rewrite H; apply Qle_refl).
    destruct (Z.even f); rewrite ?inject_Z_plus; change (inject_Z 1) with 1%Q; split; lra.
  - split; lra.
  - rewrite inject_Z_plus. change (inject_Z 1) with 1%Q. split; lra.
Qed.

Lemma rne_mono r1 r2 : (r1 <= r2)%Q -> rne r1 <= rne r2.
Proof.
  intros H.
  pose proof (Qfloor_resp_le _ _ H) as Hf.
  destruct (Z.lt_ge_cases (Qfloor r1) (Qfloor r2)) as [Hlt|Hge].
  - destruct (rne_cases r1) as [E1|E1]; destruct (rne_cases r2) as [E2|E2]; lia.
  - assert (E : Qfloor r1 = Qfloor r2) by lia.
    unfold rne. rewrite E. set (f := Qfloor r2) in *. clearbody f.
    destruct (Qcompare_spec (r1 - inject_Z f) (1 # 2)) as [H1|H1|H1];
    destruct (Qcompare_spec (r2 - inject_Z f) (1 # 2)) as [H2|H2|H2];
    try (destruct (Z.even f)); try lia;
    repeat match goal with
    | h : (?a == ?b)%Q |- _ =>
        let h1 := fresh in let h2 := fresh in
        assert (h1 : (a <= b)%Q) by (rewrite h; apply Qle_refl);
        assert (h2 : (b <= a)%Q) by (rewrite h; apply Qle_refl); clear h
    end; lra.
Qed.

Lemma rne_Z z : rne (inject_Z z) = z.
Proof.
  unfold rne. rewrite Qfloor_Z.
  replace (inject_Z z - inject_Z z ?= 1 # 2)%Q with Lt; [reflexivity|].
  symmetry. apply (proj1 (Qlt_alt _ _)). unfold Qlt; simpl; lia.
Qed.


Lemma rne_half : rne (1 # 2) = 0.
Proof. reflexivity. Qed.

(** *** Rounding a positive rational *)

Lemma scaled_bounds a : (0 < a)%Q ->
  (pow2 (flog2 a - qexp a) <= a * pow2 (- qexp a) < pow2 (flog2 a + 1 - qexp a))%Q.
Proof.
  intros Ha. destruct (flog2_spec a Ha) as [H1 H2].
  replace (flog2 a - qexp a) with (flog2 a + - qexp a) by lia.
  replace (flog2 a + 1 - qexp a) with (flog2 a + 1 + - qexp a) by lia.
  rewrite (pow2_add (flog2 a)), (pow2_add (flog2 a + 1)). split.
  - apply (proj2 (Qmult_le_r _ _ _ (pow2_pos _))). exact H1.
  - apply (proj2 (Qmult_lt_r _ _ _ (pow2_pos _))). exact H2.
Qed.

Lemma scaled_back a : (a * pow2 (- qexp a) * pow2 (qexp a) == a)%Q.
Proof.
  rewrite <- Qmult_assoc, <- pow2_add. replace (- qexp a + qexp a) with 0 by lia.
  rewrite pow2_0. apply Qmult_1_r.
Qed.

Lemma rne_nonneg r : (0 <= r)%Q -> 0 <= rne r.
Proof. intros H. change 0 with (rne 0). apply rne_mono. exact H. Qed.

Lemma rpos_nonneg a : (0 < a)%Q -> (0 <= rpos a)%Q.
Proof.
  intros Ha. unfold rpos. destruct (scaled_bounds a Ha) as [H1 _].
  assert (Hs : (0 <= a * pow2 (- qexp a))%Q)
    by (apply Qle_trans with (pow2 (flog2 a - qexp a)); [apply Qlt_le_weak, pow2_pos|exact H1]).
  apply Qmult_le_0_compat; [|apply Qlt_le_weak, pow2_pos].
  change 0%Q with (inject_Z 0). rewrite <- Zle_Qle. apply rne_nonneg. exact Hs.
Qed.

Lemma rpos_le2 a : (0 < a)%Q -> (rpos a <= 2 * a)%Q.
Proof.
  intros Ha. unfold rpos. destruct (scaled_bounds a Ha) as [H1 _].
  set (s := (a * pow2 (- qexp a))%Q) in *.
  assert (Hs : (0 <= s)%Q)
    by (apply Qle_trans with (pow2 (flog2 a - qexp a)); [apply Qlt_le_weak, pow2_pos|exact H1]).
  pose proof (rne_bounds s) as [B1 B2].
  pose proof (rne_nonneg s Hs) as Hm.
  assert (Hm2 : (inject_Z (rne s) <= 2 * s)%Q).
  { destruct (Z.eq_dec (rne s) 0) as [E|E].
    - rewrite E. change (inject_Z 0) with 0%Q. lra.
    - assert (E1 : (1 <= inject_Z (rne s))%Q) by (change 1%Q with (inject_Z 1); rewrite <- Zle_Qle; lia).
      lra. }
  apply Qle_trans with (2 * s * pow2 (qexp a))%Q.
  - apply Qmult_le_compat_r; [exact Hm2|apply Qlt_le_weak, pow2_pos].
  - rewrite <- Qmult_assoc. unfold s. rewrite scaled_back. apply Qle_refl.
Qed.

Lemma rpos_upper a : (0 < a)%Q -> (rpos a <= pow2 (flog2 a + 1))%Q.
Proof.
  intros Ha. unfold rpos. destruct (scaled_bounds a Ha) as [_ H2].
  set (s := (a * pow2 (- qexp a))%Q) in *.
  set (n := flog2 a + 1 - qexp a) in *.
  destruct (Z.le_gt_cases 0 n) as [Hn|Hn].
  - assert (Hm : rne s <= 2 ^ n).
    { rewrite <- (rne_Z (2 ^ n)). apply rne_mono. rewrite <- pow2_Z by exact Hn.
      apply Qlt_le_weak; exact H2. }
    apply Qle_trans with (inject_Z (2 ^ n) * pow2 (qexp a))%Q.
    + apply Qmult_le_compat_r; [rewrite <- Zle_Qle; exact Hm|apply Qlt_le_weak, pow2_pos].
    + rewrite <- pow2_Z by exact Hn. rewrite <- pow2_add. unfold n.
      replace (flog2 a + 1 - qexp a + qexp a) with (flog2 a + 1) by lia. apply Qle_refl.
  - assert (Hm : rne s <= 0).
    { rewrite <- rne_half. apply rne_mono. apply Qle_trans with (pow2 n).
      - apply Qlt_le_weak; exact H2.
      - change (1 # 2)%Q with (pow2 (-1)). apply pow2_le. lia. }
    apply Qle_trans with 0%Q; [|apply Qlt_le_weak, pow2_pos].
    apply Qle_trans with (0 * pow2 (qexp a))%Q; [|rewrite Qmult_0_l; apply Qle_refl].
    apply Qmult_le_compat_r; [|apply Qlt_le_weak, pow2_pos].
    change 0%Q with (inject_Z 0). rewrite <- Zle_Qle. exact Hm.
Qed.

Lemma rpos_lower a :
  (0 < a)%Q -> qexp a = flog2 a - 52 -> (pow2 (flog2 a) <= rpos a)%Q.
Proof.
  intros Ha Hk. unfold rpos. destruct (scaled_bounds a Ha) as [H1 _].
  rewrite Hk in H1 |- *. replace (flog2 a - (flog2 a - 52)) with 52 in H1 by lia.
  assert (Hm : 2 ^ 52 <= rne (a * pow2 (- (flog2 a - 52)))).
  { rewrite <- (rne_Z (2 ^ 52)). apply rne_mono. rewrite <- pow2_Z by lia. exact H1. }
  apply Qle_trans with (inject_Z (2 ^ 52) * pow2 (flog2 a - 52))%Q.
  - rewrite <- pow2_Z by lia. rewrite <- pow2_add.
    replace (52 + (flog2 a - 52)) with (flog2 a) by lia. apply Qle_refl.
  - apply Qmult_le_compat_r; [rewrite <- Zle_Qle; exact Hm|apply Qlt_le_weak, pow2_pos].
Qed.

Lemma rpos_mono a b : (0 < a)%Q -> (a <= b)%Q -> (rpos a <= rpos b)%Q.
Proof.
  intros Ha Hab.
  assert (Hb : (0 < b)%Q) by (apply Qlt_le_trans with a; auto).
  destruct (flog2_spec a Ha) as [A1 A2]. destruct (flog2_spec b Hb) as [B1 B2].
  assert (He : flog2 a < flog2 b + 1).
  { apply pow2_lt_inv. apply Qle_lt_trans with a; auto. apply Qle_lt_trans with b; auto. }
  assert (Hk : qexp a <= qexp b) by (unfold qexp; lia).
  destruct (Z.eq_dec (qexp a) (qexp b)) as [E|E].
  - unfold rpos. rewrite E.
    apply Qmult_le_compat_r; [|apply Qlt_le_weak, pow2_pos].
    rewrite <- Zle_Qle. apply rne_mono.
    apply Qmult_le_compat_r; [exact Hab|apply Qlt_le_weak, pow2_pos].
  - assert (Hkb : qexp b = flog2 b - 52) by (unfold qexp in *; lia).
    assert (Hea : flog2 a + 1 <= flog2 b) by (unfold qexp in *; lia).
    apply Qle_trans with (pow2 (flog2 a + 1)); [apply rpos_upper; exact Ha|].
    apply Qle_trans with (pow2 (flog2 b)); [apply pow2_le; exact Hea|].
    apply rpos_lower; auto.
Qed.

Lemma rpos_compat a b : (0 < a)%Q -> (a == b)%Q -> (rpos a == rpos b)%Q.
Proof.
  intros Ha E. assert (Hb : (0 < b)%Q) by (rewrite <- E; exact Ha).
  apply Qle_antisym; apply rpos_mono; auto; rewrite E; apply Qle_refl.
Qed.


(** *** Rounding any rational *)

Lemma round64_pos q : (0 < q)%Q -> (round64 q == rpos q)%Q.
Proof.
  intros H. unfold round64. rewrite (proj1 (Qgt_alt q 0) H). apply Qred_correct.
Qed.

Lemma round64_neg q : (q < 0)%Q -> (round64 q == - rpos (- q))%Q.
Proof.
  intros H. unfold round64. rewrite (proj1 (Qlt_alt q 0) H). apply Qred_correct.
Qed.

Lemma round64_zero q : (q == 0)%Q -> (round64 q == 0)%Q.
Proof. intros H. unfold round64. rewrite (proj1 (Qeq_alt q 0) H). reflexivity. Qed.

Lemma round64_sign q : (0 <= q -> 0 <= round64 q <= 2 * q)%Q /\
                       (q <= 0 -> 2 * q <= round64 q <= 0)%Q.
Proof.
  destruct (Q_dec 0 q) as [[H|H]|H].
  - rewrite (round64_pos q H). pose proof (rpos_nonneg q H). pose proof (rpos_le2 q H).
    split; intros; [split; auto|lra].
  - rewrite (round64_neg q H).
    assert (H' : (0 < - q)%Q) by lra.
    pose proof (rpos_nonneg _ H'). pose proof (rpos_le2 _ H').
    split; intros; [lra|split; lra].
  - rewrite (round64_zero q (Qeq_sym _ _ H)).
    assert (H1 : (0 <= q)%Q) by (rewrite H; apply Qle_refl).
    assert (H2 : (q <= 0)%Q) by (rewrite H; apply Qle_refl).
    split; intros; split; lra.
Qed.

Lemma round64_mono q1 q2 : (q1 <= q2)%Q -> (round64 q1 <= round64 q2)%Q.
Proof.
  intros H.
  destruct (Qlt_le_dec 0 q1) as [H1|H1].
  - rewrite (round64_pos q1 H1), (round64_pos q2 (Qlt_le_trans _ _ _ H1 H)).
    apply rpos_mono; auto.
  - destruct (Qlt_le_dec q2 0) as [H2|H2].
    + assert (H1' : (q1 < 0)%Q) by (apply Qle_lt_trans with q2; auto).
      rewrite (round64_neg q1 H1'), (round64_neg q2 H2).
      assert (R : (rpos (- q2) <= rpos (- q1))%Q) by (apply rpos_mono; lra).
      lra.
    + destruct (round64_sign q1) as [_ A]. destruct (round64_sign q2) as [B _].
      specialize (A H1). specialize (B H2). lra.
Qed.

Lemma round64_compat q1 q2 : (q1 == q2)%Q -> (round64 q1 == round64 q2)%Q.
Proof.
  intros E. apply Qle_antisym; apply round64_mono; rewrite E; apply Qle_refl.
Qed.





(** *** [lerp] and [%] in binary64 *)


Lemma lerp_inner a b :
  let x := (a + round64 (round64 (b - a) * (1 # 4)))%Q in
  ((a <= b -> a <= x <= b) /\ (b <= a -> b <= x <= a))%Q.
Proof.
  cbv zeta. split; intros H.
  - destruct (round64_sign (b - a)) as [D _]. destruct (D ltac:(lra)) as [D1 D2].
    destruct (round64_sign (round64 (b - a) * (1 # 4))) as [F _].
    destruct (F ltac:(lra)) as [F1 F2]. lra.
  - destruct (round64_sign (b - a)) as [_ D]. destruct (D ltac:(lra)) as [D1 D2].
    destruct (round64_sign (round64 (b - a) * (1 # 4))) as [_ F].
    destruct (F ltac:(lra)) as [F1 F2]. lra.
Qed.

Lemma lerp_range lo hi a b :
  (round64 lo == lo)%Q -> (round64 hi == hi)%Q ->
  (lo <= a <= hi)%Q -> (lo <= b <= hi)%Q -> (lo <= lerp a b (1 # 4) <= hi)%Q.
Proof.
  intros Hlo Hhi Ha Hb. unfold lerp.
  destruct (lerp_inner a b) as [X Y]. cbv zeta in X, Y.
  set (x := (a + round64 (round64 (b - a) * (1 # 4)))%Q) in *.
  assert (Hx : (lo <= x <= hi)%Q).
  { destruct (Qlt_le_dec a b) as [L|L].
    - destruct (X (Qlt_le_weak _ _ L)). split; lra.
    - destruct (Y L). split; lra. }
  split.
  - rewrite <- Hlo at 1. apply round64_mono; lra.
  - rewrite <- Hhi. apply round64_mono; lra.
Qed.



Lemma int_of_Q_floor q : (0 <= q)%Q -> int_of_Q q = Qfloor q.
Proof.
  destruct q as [n d]. unfold Qle, int_of_Q, Qfloor; simpl. intros H.
  apply Z.quot_div_nonneg; lia.
Qed.

Lemma pymod_range a m : (0 <= a)%Q -> (0 < m)%Q -> (0 <= pymod a m < m)%Q.
Proof.
  intros Ha Hm.
  assert (Hq : (0 <= a / m)%Q) by (apply Qle_shift_div_l; lra).
  assert (E : (m * (a / m) == a)%Q) by (field; intro E; rewrite E in Hm; discriminate).
  pose proof (Qfloor_le (a / m)) as F1. pose proof (Qlt_floor (a / m)) as F2.
  rewrite inject_Z_plus in F2. change (inject_Z 1) with 1%Q in F2.
  rewrite <- (int_of_Q_floor _ Hq) in F1, F2.
  set (f := inject_Z (int_of_Q (a / m))) in *.
  apply (Qmult_le_l _ _ m Hm) in F1. apply (Qmult_lt_l _ _ m Hm) in F2.
  rewrite E in F1, F2. rewrite Qmult_plus_distr_r, Qmult_1_r in F2.
  assert (R : (0 <= a - m * f < m)%Q).
  { set (G := (m * f)%Q) in *. clearbody G. split; lra. }
  unfold pymod. fold f.
  destruct (Qeq_bool _ 0); [split; lra|].
  replace (Qle_bool 0 (a - m * f)) with true by (symmetry; apply Qle_bool_iff; lra).
  replace (Qle_bool 0 m) with true by (symmetry; apply Qle_bool_iff; lra).
  exact R.
Qed.


(** Order-preserving sublists. *)
Inductive sublist {A : Type} : list A -> list A -> Prop :=
  | sl_nil : sublist [] []
  | sl_skip : forall x k l, sublist k l -> sublist k (x :: l)
  | sl_keep : forall x k l, sublist k l -> sublist (x :: k) (x :: l).

Lemma sublist_refl {A} (l : list A) : sublist l l.
Proof. induction l; [apply sl_nil | apply sl_keep; exact IHl]. Qed.

Lemma sublist_Forall {A} (P : A -> Prop) k l :
  sublist k l -> Forall P l -> Forall P k.
Proof.
  induction 1; intros HF; auto; inversion HF; subst; auto.
Qed.

Lemma sublist_FOP {A} (R : A -> A -> Prop) k l :
  sublist k l -> ForallOrdPairs R l -> ForallOrdPairs R k.
Proof.
  induction 1; intros HF; auto; inversion HF; subst; auto.
  constructor; eauto using sublist_Forall.
Qed.

Lemma sublist_length {A} (k l : list A) : sublist k l -> (length k <= length l)%nat.
Proof. induction 1; simpl; lia. Qed.

Lemma FOP_app_last {A} (R : A -> A -> Prop) l x :
  ForallOrdPairs R l -> Forall (fun a => R a x) l -> ForallOrdPairs R (l ++ [x]).
Proof.
  induction 1; intros HF; simpl.
  - repeat constructor.
  - inversion HF; subst. constructor; auto.
    apply Forall_app; split; auto.
Qed.

(** [del l[i]] for [i] past the head. *)
Lemma delete_at_S {A} (i : nat) (x : A) l :
  delete_at (S i) (x :: l) = x :: delete_at i l.
Proof. reflexivity. Qed.

Lemma remove_indices_S {A} (js : list nat) (x : A) l :
  remove_indices (map S js) (x :: l) = x :: remove_indices js l.
Proof.
  unfold remove_indices. rewrite <- map_rev.
  generalize (rev js) l. clear js l.
  intros js. induction js as [|j js IH]; intros l; [reflexivity|].
  cbn [map fold_left]. rewrite delete_at_S. apply IH.
Qed.

Lemma remove_indices_0 {A} (js : list nat) (x : A) l :
  remove_indices (0%nat :: map S js) (x :: l) = remove_indices js l.
Proof.
  pose proof (remove_indices_S js x l) as H.
  unfold remove_indices in *. simpl. rewrite fold_left_app.
  rewrite H. reflexivity.
Qed.

(** The enemies that survive the loop, following the loop body. *)
Fixpoint loop_kept (car : rect) (boom : nat -> nat -> pdraw) (i : nat)
    (es : list enemy) (s : session) : list enemy :=
  match es with
  | [] => []
  | e :: es' =>
      let '(s1, e', r) := enemy_body car boom i e s in
      (if r then [] else [e']) ++ loop_kept car boom (S i) es' s1
  end.

Lemma loop_remove car boom es : forall i s,
  let '(_, es', tr) := enemy_loop car boom i es s in
  exists t, tr = map (Nat.add i) t /\
            remove_indices t es' = loop_kept car boom i es s.
Proof.
  induction es as [|e es IH]; intros i s; simpl.
  - exists []; split; reflexivity.
  - destruct (enemy_body car boom i e s) as [[s1 e'] r].
    specialize (IH (S i) s1).
    destruct (enemy_loop car boom (S i) es s1) as [[s2 es''] tr].
    destruct IH as [t [Ht Hr]].
    assert (Hm : tr = map (Nat.add i) (map S t)).
    { rewrite Ht, map_map. apply map_ext. intros; lia. }
    destruct r.
    + exists (0%nat :: map S t). split.
      * simpl. rewrite Nat.add_0_r, Hm. reflexivity.
      * rewrite remove_indices_0, Hr. reflexivity.
    + exists (map S t). split; auto.
      rewrite remove_indices_S, Hr. reflexivity.
Qed.

Lemma play_logic_enemies s w i :
  enemies (play_logic s w i) =
  loop_kept (car_rect (steer s w)) (in_boom i) 0 (enemies (spawn (steer s w) i))
            (spawn (steer s w) i).
Proof.
  unfold play_logic.
  pose proof (loop_remove (car_rect (steer s w)) (in_boom i)
                (enemies (spawn (steer s w) i)) 0 (spawn (steer s w) i)) as H.
  destruct (enemy_loop _ _ 0 _ _) as [[s3 es] tr].
  destruct H as [t [Ht Hr]]. simpl.
  replace tr with t by (rewrite Ht; symmetry; apply map_id).
  exact Hr.
Qed.

(** *** One iteration of the enemy loop *)

Ltac simpl_ses :=
  cbn [fst snd set_car set_score set_lives set_enemies set_spd set_spawn_cd
       set_game_over set_tick set_dash_off set_hand_x set_particles set_ey
       car_lane car_x_px car_y score lives enemies enemy_spd spawn_cd
       game_over go_timer tick dash_off hand_x particles ey ecx epal ses
       cam_tick frame_w] in *.

Ltac body_cases :=
  unfold enemy_body; cbv zeta;
  destruct (colliderect _ _) eqn:Hc;
  [ destruct (_ <=? 0) eqn:Hl
  | destruct (_ <? _) eqn:Hx; [destruct (_ =? 0) eqn:Hm |] ]; simpl_ses.

(** Fields the loop never writes. *)
Definition same_frame_fields (s s' : session) : Prop :=
  car_y s' = car_y s /\ spawn_cd s' = spawn_cd s /\ enemies s' = enemies s /\
  car_x_px s' = car_x_px s /\ car_lane s' = car_lane s /\
  hand_x s' = hand_x s /\ tick s' = tick s /\ dash_off s' = dash_off s.

Lemma same_frame_fields_trans s1 s2 s3 :
  same_frame_fields s1 s2 -> same_frame_fields s2 s3 -> same_frame_fields s1 s3.
Proof. unfold same_frame_fields; intuition congruence. Qed.

Lemma body_fields car boom i e s :
  same_frame_fields s (fst (fst (enemy_body car boom i e s))).
Proof. body_cases; repeat split. Qed.

Lemma loop_fields car boom es : forall i s,
  same_frame_fields s (fst (fst (enemy_loop car boom i es s))).
Proof.
  induction es as [|e es IH]; intros i s; simpl.
  - repeat split.
  - pose proof (body_fields car boom i e s) as Hb.
    destruct (enemy_body car boom i e s) as [[s1 e'] r].
    specialize (IH (S i) s1).
    destruct (enemy_loop car boom (S i) es s1) as [[s2 es''] tr].
    simpl in *. eapply same_frame_fields_trans; eauto.
Qed.

(** The speed is tied to the score: [enemy_spd = min(MAX_SPEED, 5.0 + 0.5 * (score // 8))]. *)
Definition speed_rel (s : session) : Prop :=
  enemy_spd s = Z.min MAX_SPEED (10 + score s / 8) /\ 0 <= score s.

Definition speed_step (s s' : session) : Prop :=
  score s <= score s' /\ enemy_spd s <= enemy_spd s' /\ enemy_spd s' <= MAX_SPEED.

Lemma body_speed car boom i e s :
  speed_rel s ->
  speed_rel (fst (fst (enemy_body car boom i e s))) /\
  speed_step s (fst (fst (enemy_body car boom i e s))).
Proof.
  unfold speed_rel, speed_step; intros [Hs Hp].
  body_cases; unfold MAX_SPEED in *; rewrite ?Z.eqb_eq, ?Z.eqb_neq in *;
    repeat split; Z.div_mod_to_equations; lia.
Qed.

Lemma loop_speed car boom es : forall i s,
  speed_rel s ->
  speed_rel (fst (fst (enemy_loop car boom i es s))) /\
  speed_step s (fst (fst (enemy_loop car boom i es s))).
Proof.
  induction es as [|e es IH]; intros i s Hs; simpl.
  - unfold speed_step, speed_rel, MAX_SPEED in *. split; auto. lia.
  - pose proof (body_speed car boom i e s Hs) as [Hs1 Hst1].
    destruct (enemy_body car boom i e s) as [[s1 e'] r].
    specialize (IH (S i) s1 Hs1).
    destruct (enemy_loop car boom (S i) es s1) as [[s2 es''] tr].
    simpl in *. unfold speed_step in *. intuition lia.
Qed.

(** *** Geometry of a hit *)

(** Two enemies are [GAP] half pixels (168 px) apart or more. *)
Definition GAP : Z := 336.

Definition gap_ok (a b : enemy) : Prop := ey b + GAP <= ey a.

Definition shift (v : Z) (e : enemy) : enemy := set_ey e (ey e + v).

Lemma hit_y car x y :
  ry car = 492 -> rh car = 84 ->
  colliderect car (mkRect x (int_of_half y) ENEMY_W ENEMY_H) = true ->
  818 <= y <= 1151.
Proof.
  intros Hy Hh. unfold colliderect, int_of_half, ENEMY_W, ENEMY_H.
  rewrite Hy, Hh. cbn [rx ry rw rh].
  rewrite !andb_true_iff, !Z.ltb_lt. intros [[[_ _] H1] H2].
  Z.quot_rem_to_equations. lia.
Qed.

Lemma nohit_y car x y :
  ry car = 492 -> rh car = 84 -> y <= 817 ->
  colliderect car (mkRect x (int_of_half y) ENEMY_W ENEMY_H) = false.
Proof.
  intros Hy Hh Hle. unfold colliderect, int_of_half, ENEMY_W, ENEMY_H.
  rewrite Hy, Hh. cbn [rx ry rw rh].
  replace (492 <? Z.quot y 2 + 84) with false
    by (symmetry; apply Z.ltb_ge; Z.quot_rem_to_equations; lia).
  rewrite andb_false_r. reflexivity.
Qed.

Lemma body_hit car boom i e s :
  colliderect car (mkRect (ecx e - ENEMY_W / 2) (int_of_half (ey e + enemy_spd s))
                          ENEMY_W ENEMY_H) = true ->
  let '(s1, e', r) := enemy_body car boom i e s in
  r = true /\ e' = shift (enemy_spd s) e /\
  enemy_spd s1 = enemy_spd s /\ score s1 = score s /\
  lives s1 = lives s - 1 /\
  game_over s1 = (if lives s - 1 <=? 0 then true else game_over s).
Proof.
  intros Hc. unfold enemy_body; cbv zeta. rewrite Hc.
  simpl_ses. destruct (lives s - 1 <=? 0); simpl_ses; repeat split.
Qed.

Lemma body_exit car boom i e s :
  colliderect car (mkRect (ecx e - ENEMY_W / 2) (int_of_half (ey e + enemy_spd s))
                          ENEMY_W ENEMY_H) = false ->
  2 * WIN_H < ey e + enemy_spd s ->
  let '(s1, e', r) := enemy_body car boom i e s in
  r = true /\ lives s1 = lives s /\ game_over s1 = game_over s.
Proof.
  intros Hc Hx. unfold enemy_body; cbv zeta. rewrite Hc.
  apply Z.ltb_lt in Hx. rewrite Hx.
  destruct (_ =? 0); simpl_ses; repeat split.
Qed.

Lemma body_stay car boom i e s :
  colliderect car (mkRect (ecx e - ENEMY_W / 2) (int_of_half (ey e + enemy_spd s))
                          ENEMY_W ENEMY_H) = false ->
  ey e + enemy_spd s <= 2 * WIN_H ->
  enemy_body car boom i e s = (s, shift (enemy_spd s) e, false).
Proof.
  intros Hc Hx. unfold enemy_body; cbv zeta. rewrite Hc.
  apply Z.ltb_ge in Hx. rewrite Hx. reflexivity.
Qed.

Lemma FOP_shift v l :
  ForallOrdPairs gap_ok l -> ForallOrdPairs gap_ok (map (shift v) l).
Proof.
  induction 1; simpl; constructor; auto.
  apply Forall_map. eapply Forall_impl; [|eassumption].
  unfold gap_ok, shift, set_ey; simpl; intros; lia.
Qed.

(** *** The enemy loop: at most one hit per frame *)

(** Lives and the game-over flag after at most one hit. *)
Definition lives_step (s s' : session) : Prop :=
  (lives s' = lives s /\ game_over s' = game_over s) \/
  (lives s' = lives s - 1 /\
   game_over s' = (if lives s - 1 <=? 0 then true else game_over s)).

Lemma nohit_loop car boom es : forall i s,
  ry car = 492 -> rh car = 84 ->
  Forall (fun e => ey e + enemy_spd s <= 817) es ->
  enemy_loop car boom i es s = (s, map (shift (enemy_spd s)) es, []) /\
  loop_kept car boom i es s = map (shift (enemy_spd s)) es.
Proof.
  induction es as [|e es IH]; intros i s Hy Hh HF; cbn [enemy_loop loop_kept].
  - split; reflexivity.
  - inversion HF as [|? ? He HF']; subst.
    rewrite (body_stay car boom i e s).
    2: { apply nohit_y; auto. }
    2: { unfold WIN_H; lia. }
    destruct (IH (S i) s Hy Hh HF') as [H1 H2]. rewrite H1, H2.
    split; reflexivity.
Qed.

Lemma calm_loop car boom es : forall i s,
  ry car = 492 -> rh car = 84 ->
  Forall (fun e => ey e + enemy_spd s <= 2 * WIN_H) es ->
  ForallOrdPairs gap_ok es ->
  enemy_spd (fst (fst (enemy_loop car boom i es s))) = enemy_spd s /\
  lives_step s (fst (fst (enemy_loop car boom i es s))) /\
  sublist (loop_kept car boom i es s) (map (shift (enemy_spd s)) es).
Proof.
  induction es as [|e es IH]; intros i s Hy Hh HF HO; cbn [enemy_loop loop_kept].
  - split; [reflexivity|]. split; [left; auto|constructor].
  - inversion HF as [|? ? He HF']; subst. inversion HO as [|? ? Hg HO']; subst.
    destruct (colliderect car (mkRect (ecx e - ENEMY_W / 2)
                (int_of_half (ey e + enemy_spd s)) ENEMY_W ENEMY_H)) eqn:Hc.
    + pose proof (hit_y _ _ _ Hy Hh Hc) as Hb.
      pose proof (body_hit car boom i e s Hc) as Hbody.
      destruct (enemy_body car boom i e s) as [[s1 e'] r].
      destruct Hbody as [-> [-> [Hv [Hsc [Hl Hg1]]]]].
      assert (HF2 : Forall (fun e0 => ey e0 + enemy_spd s1 <= 817) es).
      { rewrite Hv. eapply Forall_impl; [|exact Hg].
        unfold gap_ok, GAP; intros; lia. }
      destruct (nohit_loop car boom es (S i) s1 Hy Hh HF2) as [H1 H2].
      rewrite H1, H2. cbn [fst snd app]. rewrite Hv.
      split; [reflexivity|]. split.
      * right; split; auto.
      * apply sl_skip. apply sublist_refl.
    + rewrite (body_stay car boom i e s Hc He).
      specialize (IH (S i) s Hy Hh HF' HO').
      destruct (enemy_loop car boom (S i) es s) as [[s2 es2] tr].
      cbn [fst snd app] in *. destruct IH as [Hv [Hls Hsub]].
      split; auto. split; auto. apply sl_keep. exact Hsub.
Qed.

Lemma kept_props e0 rest k v v' :
  0 <= v <= v' -> v' <= MAX_SPEED -> ey e0 <= 2 * WIN_H ->
  Forall (gap_ok e0) rest -> ForallOrdPairs gap_ok rest ->
  sublist k (map (shift v') rest) ->
  ForallOrdPairs gap_ok k /\ Forall (fun e => ey e <= 2 * WIN_H) k /\
  Forall (fun e' => exists e, In e (e0 :: rest) /\ ey e + v <= ey e') k /\
  (length k <= length rest)%nat /\
  (v' = v -> Forall (gap_ok (shift v e0)) k).
Proof.
  unfold MAX_SPEED, WIN_H. intros Hv Hv' H0 Hg HO Hs.
  split; [|split; [|split; [|split]]].
  - eapply sublist_FOP; [exact Hs|]. apply FOP_shift; exact HO.
  - eapply sublist_Forall; [exact Hs|]. apply Forall_map.
    eapply Forall_impl; [|exact Hg]. unfold gap_ok, GAP, shift; simpl; intros; lia.
  - eapply sublist_Forall; [exact Hs|]. apply Forall_forall.
    intros x Hx. apply in_map_iff in Hx. destruct Hx as [r [<- Hr]].
    exists r. split; [right; exact Hr|]. unfold shift; simpl; lia.
  - apply sublist_length in Hs. rewrite length_map in Hs. exact Hs.
  - intros ->. eapply sublist_Forall; [exact Hs|]. apply Forall_map.
    eapply Forall_impl; [|exact Hg]. unfold gap_ok, shift; simpl; intros; lia.
Qed.

(** What the frame needs to know of the enemies that survive the loop. *)
Definition kept_ok (es kept : list enemy) (v : Z) : Prop :=
  ForallOrdPairs gap_ok kept /\ Forall (fun e => ey e <= 2 * WIN_H) kept /\
  Forall (fun e' => exists e, In e es /\ ey e + v <= ey e') kept /\
  (length kept <= length es)%nat.

Lemma speed_rel_bounds s : speed_rel s -> 10 <= enemy_spd s <= MAX_SPEED.
Proof.
  unfold speed_rel, MAX_SPEED. intros [H1 H2]. rewrite H1.
  Z.div_mod_to_equations. lia.
Qed.

Lemma top_loop car boom es s :
  ry car = 492 -> rh car = 84 -> speed_rel s ->
  Forall (fun e => ey e <= 2 * WIN_H) es ->
  ForallOrdPairs gap_ok es ->
  lives_step s (fst (fst (enemy_loop car boom 0 es s))) /\
  kept_ok es (loop_kept car boom 0 es s) (enemy_spd s).
Proof.
  intros Hy Hh Hsr HF HO.
  pose proof (speed_rel_bounds s Hsr) as Hv. unfold MAX_SPEED in Hv.
  destruct es as [|e0 rest]; cbn [enemy_loop loop_kept].
  { split; [left; auto|]. repeat constructor. }
  inversion HF as [|? ? He0 HF']; subst. inversion HO as [|? ? Hg HO']; subst.
  unfold kept_ok.
  destruct (colliderect car (mkRect (ecx e0 - ENEMY_W / 2)
              (int_of_half (ey e0 + enemy_spd s)) ENEMY_W ENEMY_H)) eqn:Hc.
  - (* the first enemy hits the car *)
    pose proof (hit_y _ _ _ Hy Hh Hc) as Hb.
    pose proof (body_hit car boom 0 e0 s Hc) as Hbody.
    destruct (enemy_body car boom 0 e0 s) as [[s1 e'] r].
    destruct Hbody as [-> [-> [Hv1 [Hsc [Hl Hg1]]]]].
    assert (HF2 : Forall (fun e => ey e + enemy_spd s1 <= 817) rest).
    { rewrite Hv1. eapply Forall_impl; [|exact Hg].
      unfold gap_ok, GAP; intros; lia. }
    destruct (nohit_loop car boom rest 1 s1 Hy Hh HF2) as [H1 H2].
    rewrite H1, H2, Hv1. cbn [fst snd app].
    split; [right; split; auto|].
    destruct (kept_props e0 rest (map (shift (enemy_spd s)) rest)
                (enemy_spd s) (enemy_spd s)) as [K1 [K2 [K3 [K4 _]]]];
      auto using sublist_refl; unfold MAX_SPEED; try lia.
    repeat split; auto. simpl; lia.
  - destruct (Z.le_gt_cases (ey e0 + enemy_spd s) (2 * WIN_H)) as [He|He].
    + (* the first enemy stays *)
      rewrite (body_stay car boom 0 e0 s Hc He).
      assert (HF2 : Forall (fun e => ey e + enemy_spd s <= 2 * WIN_H) rest).
      { eapply Forall_impl; [|exact Hg]. unfold gap_ok, GAP, WIN_H in *; intros; lia. }
      destruct (calm_loop car boom rest 1 s Hy Hh HF2 HO') as [_ [Hls Hsub]].
      destruct (enemy_loop car boom 1 rest s) as [[s2 es2] tr].
      cbn [fst snd app] in *.
      split; [exact Hls|].
      destruct (kept_props e0 rest _ (enemy_spd s) (enemy_spd s) ltac:(lia)
                  ltac:(unfold MAX_SPEED; lia) He0 Hg HO' Hsub)
        as [K1 [K2 [K3 [K4 K5]]]].
      split; [constructor; auto|]. split; [constructor; auto; unfold shift; simpl; lia|].
      split; [|simpl; lia].
      constructor; auto. exists e0. split; [left; auto|]. unfold shift; simpl; lia.
    + (* the first enemy leaves the screen *)
      pose proof (body_exit car boom 0 e0 s Hc He) as Hbody.
      pose proof (body_speed car boom 0 e0 s Hsr) as [Hsr1 Hst1].
      destruct (enemy_body car boom 0 e0 s) as [[s1 e'] r].
      cbn [fst] in Hsr1, Hst1. destruct Hbody as [-> [Hl1 Hg1]].
      destruct Hst1 as [_ [Hv1 Hv1']]. unfold MAX_SPEED in Hv1'.
      assert (HF2 : Forall (fun e => ey e + enemy_spd s1 <= 2 * WIN_H) rest).
      { eapply Forall_impl; [|exact Hg]. unfold gap_ok, GAP, WIN_H in *; intros; lia. }
      destruct (calm_loop car boom rest 1 s1 Hy Hh HF2 HO') as [_ [Hls Hsub]].
      destruct (enemy_loop car boom 1 rest s1) as [[s2 es2] tr].
      cbn [fst snd app] in *.
      split.
      { unfold lives_step in *. rewrite Hl1, Hg1 in Hls. exact Hls. }
      destruct (kept_props e0 rest _ (enemy_spd s) (enemy_spd s1) ltac:(lia)
                  ltac:(unfold MAX_SPEED; lia) He0 Hg HO' Hsub)
        as [K1 [K2 [K3 [K4 _]]]].
      repeat split; auto. simpl; lia.
Qed.

(** *** The session invariant *)

Definition inv_ses (s : session) : Prop :=
  car_y s = 492 /\
  0 <= lives s <= 3 /\
  (game_over s = true <-> lives s = 0) /\
  speed_rel s /\
  Z.of_nat (length (enemies s)) <= MAX_ENEMIES /\
  Forall (fun e => ey e <= 2 * WIN_H) (enemies s) /\
  ForallOrdPairs gap_ok (enemies s) /\
  Forall (fun e => GAP <= ey e + 2 * ENEMY_H + enemy_spd s * Z.max 0 (spawn_cd s - 1))
         (enemies s).

Definition inv_fields_eq (s s' : session) : Prop :=
  car_y s' = car_y s /\ lives s' = lives s /\ game_over s' = game_over s /\
  score s' = score s /\ enemy_spd s' = enemy_spd s /\ enemies s' = enemies s /\
  spawn_cd s' = spawn_cd s.

Lemma inv_transfer s s' : inv_fields_eq s s' -> inv_ses s -> inv_ses s'.
Proof.
  unfold inv_fields_eq, inv_ses, speed_rel.
  intros (H1 & H2 & H3 & H4 & H5 & H6 & H7).
  rewrite H1, H2, H3, H4, H5, H6, H7. tauto.
Qed.

Lemma inv_reset : inv_ses reset_state.
Proof.
  unfold inv_ses, speed_rel; simpl. repeat split; try lia; try discriminate; constructor.
Qed.

Lemma spawn_gap sc :
  0 <= sc -> 336 <= Z.min 36 (10 + sc / 8) * (Z.max 25 (70 - sc / 5) - 8).
Proof.
  intros H.
  destruct (Z.le_gt_cases sc 140) as [H1|H1].
  - assert (A : 10 <= Z.min 36 (10 + sc / 8)) by (Z.div_mod_to_equations; lia).
    assert (B : 34 <= Z.max 25 (70 - sc / 5) - 8) by (Z.div_mod_to_equations; lia).
    nia.
  - destruct (Z.le_gt_cases sc 224) as [H2|H2].
    + assert (A : 27 <= Z.min 36 (10 + sc / 8)) by (Z.div_mod_to_equations; lia).
      assert (B : 18 <= Z.max 25 (70 - sc / 5) - 8) by (Z.div_mod_to_equations; lia).
      nia.
    + assert (A : 36 <= Z.min 36 (10 + sc / 8)) by (Z.div_mod_to_equations; lia).
      assert (B : 17 <= Z.max 25 (70 - sc / 5) - 8) by (Z.div_mod_to_equations; lia).
      nia.
Qed.

Lemma spawn_cases s i :
  inv_fields_eq s (set_enemies (set_spawn_cd (spawn s i) (spawn_cd s)) (enemies s)) /\
  ((spawn_cd s - 1 <= 0 /\ Z.of_nat (length (enemies s)) < MAX_ENEMIES /\
    (exists ne, ey ne = - 2 * ENEMY_H /\ enemies (spawn s i) = enemies s ++ [ne]) /\
    spawn_cd (spawn s i) = Z.max 25 (70 - score s / 5) + in_jitter i)
   \/
   (~ (spawn_cd s - 1 <= 0 /\ Z.of_nat (length (enemies s)) < MAX_ENEMIES) /\
    enemies (spawn s i) = enemies s /\ spawn_cd (spawn s i) = spawn_cd s - 1)).
Proof.
  unfold spawn. cbv zeta. simpl_ses.
  destruct (spawn_cd s - 1 <=? 0) eqn:Hc; destruct (_ <? MAX_ENEMIES) eqn:Hl;
    cbn [andb]; simpl_ses;
    rewrite ?Z.leb_le, ?Z.leb_gt, ?Z.ltb_lt, ?Z.ltb_ge in *;
    (split; [unfold inv_fields_eq; simpl_ses; repeat split|]).
  - left. repeat split; auto. eexists; split; [|reflexivity]. reflexivity.
  - right. repeat split; auto. lia.
  - right. repeat split; auto. lia.
  - right. repeat split; auto. lia.
Qed.

Lemma play_logic_eq s w i :
  play_logic s w i =
  set_enemies
    (fst (fst (enemy_loop (car_rect (steer s w)) (in_boom i) 0
                 (enemies (spawn (steer s w) i)) (spawn (steer s w) i))))
    (loop_kept (car_rect (steer s w)) (in_boom i) 0
       (enemies (spawn (steer s w) i)) (spawn (steer s w) i)).
Proof.
  rewrite <- play_logic_enemies. unfold play_logic.
  destruct (enemy_loop _ _ 0 _ _) as [[s3 es] tr]. reflexivity.
Qed.

Lemma steer_fields s w : inv_fields_eq s (steer s w).
Proof. unfold inv_fields_eq; repeat split. Qed.

Lemma play_inv s w i :
  inv_ses s -> game_over s = false -> valid_input i ->
  inv_ses (play_logic s w i).
Proof.
  intros Hinv Hgo Hi. rewrite play_logic_eq.
  set (s1 := steer s w).
  assert (Hinv1 : inv_ses s1) by (apply (inv_transfer s); [apply steer_fields|exact Hinv]).
  pose proof (steer_fields s w) as Hf1. fold s1 in Hf1.
  set (car := car_rect s1).
  destruct (spawn_cases s1 i) as [Hf2 Hsp].
  set (s2 := spawn s1 i) in *.
  set (es2 := enemies s2) in *.
  set (s3 := fst (fst (enemy_loop car (in_boom i) 0 es2 s2))).
  set (kept := loop_kept car (in_boom i) 0 es2 s2).
  destruct Hinv1 as (Hcy & Hlv & Hgo1 & Hsr1 & Hlen & Hy & Hgap & Hcd).
  unfold inv_fields_eq in Hf1, Hf2. simpl_ses.
  destruct Hf2 as (F1 & F2 & F3 & F4 & F5 & _ & _).
  destruct Hf1 as (G1 & G2 & G3 & G4 & G5 & _ & _).
  assert (Hsr2 : speed_rel s2) by (unfold speed_rel in *; rewrite F4, F5; exact Hsr1).
  pose proof (speed_rel_bounds s2 Hsr2) as Hv2. unfold MAX_SPEED in Hv2.
  assert (Hcar1 : ry car = 492) by (unfold car, car_rect; simpl; exact Hcy).
  assert (Hcar2 : rh car = 84) by reflexivity.
  (* the enemies handed to the loop *)
  assert (Hpre : Forall (fun e => ey e <= 2 * WIN_H) es2 /\ ForallOrdPairs gap_ok es2 /\
                 Z.of_nat (length es2) <= MAX_ENEMIES).
  { destruct Hsp as [(Hc & Hl & (ne & Hne & Hes) & _) | (_ & Hes & _)];
      rewrite Hes; [|tauto].
    assert (Hold : Forall (fun e => 168 <= ey e) (enemies s1)).
    { eapply Forall_impl; [|exact Hcd]. unfold GAP, ENEMY_H; intros e He.
      replace (Z.max 0 (spawn_cd s1 - 1)) with 0 in He by lia. lia. }
    split; [|split].
    - apply Forall_app; split; auto. constructor; auto. rewrite Hne. unfold WIN_H, ENEMY_H; lia.
    - apply FOP_app_last; auto. eapply Forall_impl; [|exact Hold].
      unfold gap_ok, GAP; rewrite Hne; unfold ENEMY_H; intros; lia.
    - rewrite length_app. cbn [length]. lia. }
  destruct Hpre as (Hy2 & Hgap2 & Hlen2).
  destruct (top_loop car (in_boom i) es2 s2 Hcar1 Hcar2 Hsr2 Hy2 Hgap2) as [Hls Hk].
  fold s3 kept in Hls, Hk.
  destruct (loop_speed car (in_boom i) es2 0 s2 Hsr2) as [Hsr3 Hst3].
  fold s3 in Hsr3, Hst3.
  destruct (loop_fields car (in_boom i) es2 0 s2) as (H1 & H2 & _). fold s3 in H1, H2.
  destruct Hk as (K1 & K2 & K3 & K4).
  destruct Hst3 as (_ & Hv3 & Hv3').
  unfold inv_ses. simpl_ses.
  split; [congruence|].
  split; [|split; [|split; [exact Hsr3|split; [lia|split; [exact K2|split; [exact K1|]]]]]].
  - assert (Hl1 : 1 <= lives s2 <= 3).
    { rewrite F2. destruct Hgo1 as [_ Hb]. rewrite G3, Hgo in Hb.
      destruct (Z.eq_dec (lives s1) 0) as [Hz|Hz]; [discriminate (Hb Hz)|lia]. }
    unfold lives_step in Hls. destruct Hls as [[-> _]|[-> _]]; lia.
  - assert (Hl1 : 1 <= lives s2 <= 3).
    { rewrite F2. destruct Hgo1 as [_ Hb]. rewrite G3, Hgo in Hb.
      destruct (Z.eq_dec (lives s1) 0) as [Hz|Hz]; [discriminate (Hb Hz)|lia]. }
    assert (Hg2 : game_over s2 = false) by congruence.
    unfold lives_step in Hls. destruct Hls as [[-> ->]|[-> ->]]; rewrite ?Hg2.
    + split; [discriminate|lia].
    + destruct (lives s2 - 1 <=? 0) eqn:E;
        [rewrite Z.leb_le in E | rewrite Z.leb_gt in E]; split; intros; try lia; discriminate.
  - apply Forall_forall. intros e' Hin.
    rewrite Forall_forall in K3. destruct (K3 e' Hin) as [e [Hine Hle]].
    rewrite H2. unfold GAP, ENEMY_H in *.
    destruct Hi as (_ & _ & Hj & _).
    destruct Hsp as [(Hc & Hl & (ne & Hne & Hes) & Hcd2) | (Hc & Hes & Hcd2)];
      rewrite Hcd2; rewrite Hes in Hine.
    + set (c := Z.max 25 (70 - score s1 / 5) + in_jitter i).
      assert (Hc17 : 17 <= c) by (unfold c; lia).
      replace (Z.max 0 (c - 1)) with (c - 1) by lia.
      assert (P1 : enemy_spd s2 * (c - 1) <= enemy_spd s3 * (c - 1))
        by (apply Z.mul_le_mono_nonneg_r; lia).
      apply in_app_or in Hine. destruct Hine as [Hold|[<-|[]]].
      * rewrite Forall_forall in Hcd. specialize (Hcd e Hold).
        replace (Z.max 0 (spawn_cd s1 - 1)) with 0 in Hcd by lia.
        nia.
      * destruct Hsr2 as [Hv _]. rewrite F4 in Hv.
        pose proof (spawn_gap (score s1) ltac:(unfold speed_rel in Hsr1; lia)) as Hgp.
        unfold MAX_SPEED in Hv. rewrite <- Hv in Hgp.
        assert (P2 : enemy_spd s2 * (Z.max 25 (70 - score s1 / 5) - 8) <= enemy_spd s2 * c)
          by (apply Z.mul_le_mono_nonneg_l; unfold c; lia).
        rewrite Hne in Hle. nia.
    + rewrite Forall_forall in Hcd. specialize (Hcd e Hine). rewrite <- F5 in Hcd.
      destruct (Z.le_gt_cases (spawn_cd s1) 1) as [Hs|Hs].
      * replace (Z.max 0 (spawn_cd s1 - 1)) with 0 in Hcd by lia.
        replace (Z.max 0 (spawn_cd s1 - 1 - 1)) with 0 by lia. lia.
      * replace (Z.max 0 (spawn_cd s1 - 1)) with (spawn_cd s1 - 1) in Hcd by lia.
        replace (Z.max 0 (spawn_cd s1 - 1 - 1)) with (spawn_cd s1 - 2) by lia.
        assert (P1 : enemy_spd s2 * (spawn_cd s1 - 2) <= enemy_spd s3 * (spawn_cd s1 - 2))
          by (apply Z.mul_le_mono_nonneg_r; lia).
        nia.
Qed.

Lemma over_inv s : inv_ses s -> inv_ses (over_logic s).
Proof.
  intros H. unfold over_logic.
  destruct (0 <? go_timer s).
  - eapply inv_transfer; [|exact H]. unfold inv_fields_eq; repeat split.
  - destruct (hand_x s); [apply inv_reset|exact H].
Qed.

Lemma camera_fields w i : inv_fields_eq (ses w) (ses (camera w i)).
Proof.
  unfold camera. destruct (in_frame i) as [[fw hx]|];
    [destruct (_ =? 0)|]; unfold inv_fields_eq; repeat split.
Qed.

Lemma frame_inv w i : inv_ses (ses w) -> valid_input i -> inv_ses (ses (frame w i)).
Proof.
  intros H Hi. unfold frame. cbv zeta.
  set (w1 := camera _ i).
  assert (H1 : inv_ses (scroll (ses w1))).
  { eapply inv_transfer; [|eapply inv_transfer; [apply camera_fields|]].
    - unfold inv_fields_eq; repeat split.
    - eapply inv_transfer; [|exact H]. unfold inv_fields_eq; repeat split. }
  cbn [ses].
  assert (H2 : inv_ses (if negb (game_over (scroll (ses w1)))
                        then play_logic (scroll (ses w1)) (frame_w w1) i
                        else over_logic (scroll (ses w1)))).
  { destruct (game_over (scroll (ses w1))) eqn:Hg; simpl.
    - apply over_inv; exact H1.
    - apply play_inv; auto. }
  eapply inv_transfer; [|exact H2]. unfold inv_fields_eq; repeat split.
Qed.

Lemma reachable_inv w : reachable w -> inv_ses (ses w).
Proof.
  induction 1.
  - apply inv_reset.
  - apply frame_inv; auto.
Qed.

Lemma reachable_run w ins :
  reachable w -> Forall valid_input ins -> reachable (run w ins).
Proof.
  intros Hw Hins. revert w Hw.
  induction Hins as [|i ins Hi _ IH]; intros w Hw; simpl; auto.
  apply IH. constructor; auto.
Qed.

Lemma script_input_valid hand lane :
  0 <= lane <= 2 -> valid_input (script_input hand lane).
Proof.
  intros H. unfold valid_input, valid_pdraw; simpl.
  repeat split; try lia.
Qed.

(** *** Frames, by branch *)

Lemma frame_ses w i :
  ses (frame w i) =
  let s1 := pre_logic w i in
  let s2 := if negb (game_over s1) then play_logic s1 (frame_w (cam_world w i)) i
            else over_logic s1 in
  set_particles s2 (particles_step (particles s2)).
Proof. reflexivity. Qed.

(** Fields that neither the tick counter, the camera nor the scrolling
    offset touch. *)
Definition logic_fields_eq (s s' : session) : Prop :=
  score s' = score s /\ lives s' = lives s /\ game_over s' = game_over s /\
  go_timer s' = go_timer s /\ enemies s' = enemies s /\
  enemy_spd s' = enemy_spd s /\ spawn_cd s' = spawn_cd s /\
  particles s' = particles s.

Lemma pre_logic_fields w i : logic_fields_eq (ses w) (pre_logic w i).
Proof.
  unfold pre_logic, cam_world, camera. destruct (in_frame i) as [[fw hx]|];
    [destruct (_ =? 0)|]; unfold logic_fields_eq; repeat split.
Qed.

Lemma frame_over w i :
  game_over (ses w) = true -> is_restart w i = false ->
  score (ses (frame w i)) = score (ses w) /\
  lives (ses (frame w i)) = lives (ses w) /\
  game_over (ses (frame w i)) = true /\
  go_timer (ses (frame w i)) =
    (if 0 <? go_timer (ses w) then go_timer (ses w) - 1 else go_timer (ses w)) /\
  enemies (ses (frame w i)) = enemies (ses w) /\
  enemy_spd (ses (frame w i)) = enemy_spd (ses w) /\
  spawn_cd (ses (frame w i)) = spawn_cd (ses w) /\
  particles (ses (frame w i)) = particles_step (particles (ses w)).
Proof.
  intros Hg Hr. rewrite frame_ses. unfold is_restart in Hr.
  pose proof (pre_logic_fields w i) as (E1 & E2 & E3 & E4 & E5 & E6 & E7 & E8).
  set (s1 := pre_logic w i) in *. cbv zeta in *.
  unfold over_logic. rewrite E3, Hg in *. rewrite E4 in *.
  destruct (0 <? go_timer (ses w)) eqn:Ht; cbn [negb andb] in *.
  - simpl_ses. repeat split; congruence.
  - destruct (hand_x s1); [discriminate|].
    simpl_ses. repeat split; congruence.
Qed.

Lemma frame_restart w i : is_restart w i = true -> ses (frame w i) = reset_state.
Proof.
  intros Hr. rewrite frame_ses. unfold is_restart in Hr. cbv zeta in *.
  destruct (game_over (pre_logic w i)); [|discriminate].
  destruct (0 <? go_timer (pre_logic w i)) eqn:Ht; [discriminate|].
  cbn [negb]. unfold over_logic. rewrite Ht.
  destruct (hand_x (pre_logic w i)); [reflexivity|discriminate].
Qed.

Lemma frame_play w i :
  game_over (ses w) = false ->
  ses (frame w i) =
  let s2 := play_logic (pre_logic w i) (frame_w (cam_world w i)) i in
  set_particles s2 (particles_step (particles s2)).
Proof.
  intros Hg. rewrite frame_ses.
  pose proof (pre_logic_fields w i) as (_ & _ & E3 & _).
  cbv zeta. rewrite E3, Hg. reflexivity.
Qed.

(** *** Score and speed in a playing frame *)

Lemma body_score car boom n e s :
  score (fst (fst (enemy_body car boom n e s))) =
  if colliderect car (mkRect (ecx e - ENEMY_W / 2) (int_of_half (ey e + enemy_spd s))
                              ENEMY_W ENEMY_H)
  then score s
  else if 2 * WIN_H <? ey e + enemy_spd s then score s + 1 else score s.
Proof. body_cases; reflexivity. Qed.

Lemma loop_score car boom es : forall n s,
  score s <= score (fst (fst (enemy_loop car boom n es s))).
Proof.
  induction es as [|e es IH]; intros n s; simpl; [lia|].
  pose proof (body_score car boom n e s) as Hb.
  destruct (enemy_body car boom n e s) as [[s1 e'] r].
  specialize (IH (S n) s1).
  destruct (enemy_loop car boom (S n) es s1) as [[s2 es''] tr].
  simpl in *. destruct (colliderect _ _); [|destruct (_ <? _)]; lia.
Qed.

Lemma spawn_keeps s i :
  score (spawn s i) = score s /\ enemy_spd (spawn s i) = enemy_spd s.
Proof.
  destruct (spawn_cases s i) as [(_ & _ & _ & H4 & H5 & _) _].
  simpl_ses. auto.
Qed.

Lemma play_score s w i : score s <= score (play_logic s w i).
Proof.
  rewrite play_logic_eq. simpl_ses.
  pose proof (loop_score (car_rect (steer s w)) (in_boom i)
                (enemies (spawn (steer s w) i)) 0 (spawn (steer s w) i)).
  destruct (spawn_keeps (steer s w) i) as [H1 _].
  assert (H0 : score (steer s w) = score s) by reflexivity. lia.
Qed.

Lemma play_speed s w i :
  speed_rel s -> enemy_spd s <= enemy_spd (play_logic s w i) <= MAX_SPEED.
Proof.
  intros Hs. rewrite play_logic_eq. simpl_ses.
  destruct (spawn_keeps (steer s w) i) as [H1 H2].
  assert (Hs' : speed_rel (spawn (steer s w) i))
    by (unfold speed_rel in *; rewrite H1, H2; exact Hs).
  assert (H0 : enemy_spd (steer s w) = enemy_spd s) by reflexivity.
  destruct (loop_speed (car_rect (steer s w)) (in_boom i)
              (enemies (spawn (steer s w) i)) 0 (spawn (steer s w) i) Hs')
    as [_ (_ & H3 & H4)].
  lia.
Qed.

Lemma frame_score w i :
  is_restart w i = false -> score (ses w) <= score (ses (frame w i)).
Proof.
  intros Hr. destruct (game_over (ses w)) eqn:Hg.
  - destruct (frame_over w i Hg Hr) as [H _]. lia.
  - rewrite (frame_play w i Hg). cbv zeta. simpl_ses.
    pose proof (pre_logic_fields w i) as (E1 & _).
    pose proof (play_score (pre_logic w i) (frame_w (cam_world w i)) i). lia.
Qed.

Lemma frame_speed w i :
  inv_ses (ses w) -> is_restart w i = false ->
  enemy_spd (ses w) <= enemy_spd (ses (frame w i)) <= MAX_SPEED.
Proof.
  intros Hinv Hr. destruct Hinv as (_ & _ & _ & Hs & _).
  pose proof (speed_rel_bounds _ Hs) as Hb.
  destruct (game_over (ses w)) eqn:Hg.
  - destruct (frame_over w i Hg Hr) as (_ & _ & _ & _ & _ & H & _). lia.
  - rewrite (frame_play w i Hg). cbv zeta. simpl_ses.
    pose proof (pre_logic_fields w i) as (E1 & _ & _ & _ & _ & E6 & _).
    assert (Hs' : speed_rel (pre_logic w i))
      by (unfold speed_rel in *; rewrite E1, E6; exact Hs).
    pose proof (play_speed (pre_logic w i) (frame_w (cam_world w i)) i Hs'). lia.
Qed.

Lemma script_reachable hand lane n :
  0 <= lane <= 2 -> reachable (run (init_world 640) (repeat (script_input hand lane) n)).
Proof.
  intros H. apply reachable_run; [constructor|].
  apply Forall_forall. intros x Hx. apply repeat_spec in Hx. subst.
  apply script_input_valid; exact H.
Qed.

(** *** Particles *)

Lemma particles_step_app a b :
  particles_step (a ++ b) = particles_step a ++ particles_step b.
Proof. unfold particles_step. rewrite map_app, filter_app. reflexivity. Qed.

Lemma iter_particles_step_app n a b :
  Nat.iter n particles_step (a ++ b) =
  Nat.iter n particles_step a ++ Nat.iter n particles_step b.
Proof.
  induction n as [|n IH]; simpl; [reflexivity|].
  rewrite IH. apply particles_step_app.
Qed.

Lemma particles_step_life c l :
  Forall (fun p => life p <= c) l ->
  Forall (fun p => 0 < life p /\ life p <= c - 1) (particles_step l).
Proof.
  intros H. unfold particles_step. apply Forall_forall. intros p Hp.
  apply filter_In in Hp as [Hp Hpos]. apply Z.ltb_lt in Hpos.
  apply in_map_iff in Hp as [q [Hq Hin]]. subst p.
  rewrite Forall_forall in H. specialize (H q Hin).
  unfold update in *; cbn [life] in *. lia.
Qed.

Lemma iter_particles_life c n l :
  Forall (fun p => life p <= c) l ->
  Forall (fun p => life p <= c - Z.of_nat n) (Nat.iter n particles_step l) /\
  ((0 < n)%nat -> Forall (fun p => 0 < life p) (Nat.iter n particles_step l)).
Proof.
  intros H. induction n as [|n [IH _]]; simpl.
  - split; [|lia]. eapply Forall_impl; [|exact H]. simpl; intros; lia.
  - pose proof (particles_step_life _ _ IH) as H1. split.
    + eapply Forall_impl; [|exact H1]. simpl; intros; lia.
    + intros _. eapply Forall_impl; [|exact H1]. simpl; intros; lia.
Qed.

Lemma skipn_length_app {A} (a b : list A) : skipn (length a) (a ++ b) = b.
Proof. induction a; simpl; auto. Qed.

Lemma firstn_length_app {A} (a b : list A) : firstn (length a) (a ++ b) = a.
Proof. induction a; simpl; f_equal; auto. Qed.

(** ** The claims *)

(** A run that ends in the game-over screen: enemies keep coming down the
    lane of the car, which stays in lane 1 without a hand. *)
Definition crash_run (n : Z) : world :=
  run (init_world 640) (repeat (script_input None 1) (Z.to_nat n)).

(** A long run in which the car stays in lane 1 and every enemy comes down
    lane 0, so that every enemy is retired off the bottom. *)
Definition dodge_run (n : Z) : world :=
  run (init_world 640) (repeat (script_input None 0) (Z.to_nat n)).



(** C1: in every reachable state [lives] is non-negative, and [lives] is 0
    exactly when the [game_over] flag is set. *)
Theorem lives_game_over_inv w :
  reachable w ->
  0 <= lives (ses w) /\ (lives (ses w) = 0 <-> game_over (ses w) = true).
Proof.
  intros H. destruct (reachable_inv w H) as (_ & [H1 _] & H3 & _).
  split; [lia|tauto].
Qed.

Lemma lives_game_over_inv_witness :
  reachable (crash_run 300) /\
  0 <= lives (ses (crash_run 300)) /\
  (lives (ses (crash_run 300)) = 0 <-> game_over (ses (crash_run 300)) = true).
Proof.
  assert (H : reachable (crash_run 300))
    by (unfold crash_run; apply script_reachable; lia).
  split; [exact H|]. apply (lives_game_over_inv _ H).
Defined.

(** C2: an enemy that, in the same iteration, overlaps the car and has its
    top below the window ([ey > WIN_H]) takes the collision branch: it is
    put in [to_remove], [explode] adds its particles, [lives] drops by one,
    and neither [score] nor [enemy_spd] changes. *)
Theorem collision_before_exit car boom n e s :
  colliderect car (mkRect (ecx e - ENEMY_W / 2) (int_of_half (ey e + enemy_spd s))
                          ENEMY_W ENEMY_H) = true ->
  2 * WIN_H < ey e + enemy_spd s ->
  let '(s1, e', r) := enemy_body car boom n e s in
  r = true /\ score s1 = score s /\ lives s1 = lives s - 1 /\
  enemy_spd s1 = enemy_spd s /\
  particles s1 = explode (particles s) (ecx e)
                   (int_of_half (ey e + enemy_spd s + 2 * (ENEMY_H / 2)))
                   (epal e) (boom n).
Proof.
  intros Hc _. unfold enemy_body; cbv zeta. rewrite Hc.
  simpl_ses. destruct (lives s - 1 <=? 0); simpl_ses; repeat split.
Qed.

Lemma collision_before_exit_witness :
  let car := mkRect 160 560 52 84 in
  let e := mkEnemy 186 1210 ((220, 50, 50), (140, 20, 20)) in
  colliderect car (mkRect (ecx e - ENEMY_W / 2)
                     (int_of_half (ey e + enemy_spd reset_state))
                     ENEMY_W ENEMY_H) = true /\
  2 * WIN_H < ey e + enemy_spd reset_state /\
  let '(s1, e', r) := enemy_body car (fun _ _ => calm_draw) 0 e reset_state in
  r = true /\ score s1 = score reset_state /\ lives s1 = lives reset_state - 1 /\
  enemy_spd s1 = enemy_spd reset_state /\
  particles s1 = explode (particles reset_state) (ecx e)
                   (int_of_half (ey e + enemy_spd reset_state + 2 * (ENEMY_H / 2)))
                   (epal e) ((fun _ _ => calm_draw) 0%nat).
Proof.
  cbv zeta. split; [reflexivity|]. split; [vm_compute; reflexivity|].
  apply collision_before_exit; [reflexivity|vm_compute; reflexivity].
Defined.

(** C3 (as the code has it): in every reachable state the speed is
    [min(MAX_SPEED, 5.0 + 0.5 * (score // 8))], and a frame that is not
    the restart frame never lowers it nor takes it above [MAX_SPEED].  So
    a retirement that brings [score] to a multiple of 8 adds 0.5 only while
    the speed is below [MAX_SPEED]; once the cap is reached it no longer
    changes. *)
Theorem speed_schedule w i :
  reachable w -> valid_input i -> is_restart w i = false ->
  enemy_spd (ses w) = Z.min MAX_SPEED (10 + score (ses w) / 8) /\
  enemy_spd (ses (frame w i)) = Z.min MAX_SPEED (10 + score (ses (frame w i)) / 8) /\
  enemy_spd (ses w) <= enemy_spd (ses (frame w i)) <= MAX_SPEED.
Proof.
  intros Hw Hi Hr.
  pose proof (reachable_inv w Hw) as Hinv.
  pose proof (reachable_inv _ (reach_frame w i Hw Hi)) as Hinv'.
  destruct Hinv as (_ & _ & _ & [Hs _] & _).
  destruct Hinv' as (_ & _ & _ & [Hs' _] & _).
  split; [exact Hs|]. split; [exact Hs'|].
  apply frame_speed; [apply reachable_inv; exact Hw | exact Hr].
Qed.

Lemma speed_schedule_witness :
  reachable (dodge_run 8967) /\ valid_input (script_input None 0) /\
  is_restart (dodge_run 8967) (script_input None 0) = false /\
  enemy_spd (ses (dodge_run 8967)) =
    Z.min MAX_SPEED (10 + score (ses (dodge_run 8967)) / 8) /\
  enemy_spd (ses (frame (dodge_run 8967) (script_input None 0))) =
    Z.min MAX_SPEED (10 + score (ses (frame (dodge_run 8967) (script_input None 0))) / 8) /\
  enemy_spd (ses (dodge_run 8967)) <=
    enemy_spd (ses (frame (dodge_run 8967) (script_input None 0))) <= MAX_SPEED.
Proof.
  assert (H1 : reachable (dodge_run 8967))
    by (unfold dodge_run; apply script_reachable; lia).
  assert (H2 : valid_input (script_input None 0)) by (apply script_input_valid; lia).
  assert (H3 : is_restart (dodge_run 8967) (script_input None 0) = false)
    by (vm_compute; reflexivity).
  split; [exact H1|]. split; [exact H2|]. split; [exact H3|].
  apply (speed_schedule _ _ H1 H2 H3).
Defined.

(** C3, counterexample: after 8967 frames of the run [dodge_run] the score
    is 215 and the speed is already [MAX_SPEED]; in the next frame an enemy
    is retired, the score becomes 216, a multiple of 8, and the speed does
    not increase. *)
Lemma speed_not_raised_at_cap :
  reachable (dodge_run 8967) /\ valid_input (script_input None 0) /\
  game_over (ses (dodge_run 8967)) = false /\
  score (ses (dodge_run 8967)) = 215 /\
  score (ses (frame (dodge_run 8967) (script_input None 0))) = 216 /\
  216 mod 8 = 0 /\
  enemy_spd (ses (dodge_run 8967)) = MAX_SPEED /\
  enemy_spd (ses (frame (dodge_run 8967) (script_input None 0))) = MAX_SPEED.
Proof.
  split; [unfold dodge_run; apply script_reachable; lia|].
  split; [apply script_input_valid; lia|].
  vm_compute. repeat split.
Qed.

(** C4: in the game-over screen with [go_timer = 0], when the camera
    reports a hand, the frame ends in the fresh session of [reset_state()]:
    score 0, three lives, no enemies, no particles, speed 5.0, spawn
    countdown 70, scroll offset 0 and the car in lane 1. *)
Theorem restart_resets w i :
  game_over (ses w) = true -> go_timer (ses w) = 0 ->
  hand_x (pre_logic w i) <> None ->
  let s := ses (frame w i) in
  score s = 0 /\ lives s = 3 /\ enemies s = [] /\ particles s = [] /\
  enemy_spd s = 10 /\ spawn_cd s = 70 /\ dash_off s = 0%Q /\
  car_lane s = 1 /\ car_x_px s = inject_Z (lane_x 1 - CAR_W / 2) /\
  game_over s = false.
Proof.
  intros Hg Ht Hh.
  pose proof (pre_logic_fields w i) as (_ & _ & E3 & E4 & _).
  assert (Hr : is_restart w i = true).
  { unfold is_restart. cbv zeta. rewrite E3, E4, Hg, Ht.
    destruct (hand_x (pre_logic w i)); [reflexivity|congruence]. }
  cbv zeta. rewrite (frame_restart w i Hr). repeat split.
Qed.

Lemma restart_resets_witness :
  game_over (ses (crash_run 413)) = true /\ go_timer (ses (crash_run 413)) = 0 /\
  hand_x (pre_logic (crash_run 413) (script_input (Some 320) 1)) <> None /\
  let s := ses (frame (crash_run 413) (script_input (Some 320) 1)) in
  score s = 0 /\ lives s = 3 /\ enemies s = [] /\ particles s = [] /\
  enemy_spd s = 10 /\ spawn_cd s = 70 /\ dash_off s = 0%Q /\
  car_lane s = 1 /\ car_x_px s = inject_Z (lane_x 1 - CAR_W / 2) /\
  game_over s = false.
Proof.
  assert (H1 : game_over (ses (crash_run 413)) = true) by (vm_compute; reflexivity).
  assert (H2 : go_timer (ses (crash_run 413)) = 0) by (vm_compute; reflexivity).
  assert (H3 : hand_x (pre_logic (crash_run 413) (script_input (Some 320) 1)) <> None)
    by (vm_compute; discriminate).
  split; [exact H1|]. split; [exact H2|]. split; [exact H3|].
  apply (restart_resets _ _ H1 H2 H3).
Defined.

(** C5: in the game-over screen with [go_timer > 0], whatever the input,
    the frame is not the restart frame, [go_timer] drops by exactly 1, the
    flag stays set, and score, lives and enemies are unchanged. *)
Theorem cooldown_ticks w i :
  game_over (ses w) = true -> 0 < go_timer (ses w) ->
  is_restart w i = false /\
  go_timer (ses (frame w i)) = go_timer (ses w) - 1 /\
  game_over (ses (frame w i)) = true /\
  score (ses (frame w i)) = score (ses w) /\
  lives (ses (frame w i)) = lives (ses w) /\
  enemies (ses (frame w i)) = enemies (ses w).
Proof.
  intros Hg Ht.
  pose proof (pre_logic_fields w i) as (_ & _ & E3 & E4 & _).
  assert (Hr : is_restart w i = false).
  { unfold is_restart. cbv zeta. rewrite E3, E4, Hg.
    apply Z.ltb_lt in Ht. rewrite Ht. reflexivity. }
  destruct (frame_over w i Hg Hr) as (H1 & H2 & H3 & H4 & H5 & _).
  apply Z.ltb_lt in Ht. rewrite Ht in H4.
  repeat split; assumption.
Qed.

Lemma cooldown_ticks_witness :
  game_over (ses (crash_run 300)) = true /\ 0 < go_timer (ses (crash_run 300)) /\
  is_restart (crash_run 300) (script_input (Some 320) 1) = false /\
  go_timer (ses (frame (crash_run 300) (script_input (Some 320) 1))) =
    go_timer (ses (crash_run 300)) - 1 /\
  game_over (ses (frame (crash_run 300) (script_input (Some 320) 1))) = true /\
  score (ses (frame (crash_run 300) (script_input (Some 320) 1))) =
    score (ses (crash_run 300)) /\
  lives (ses (frame (crash_run 300) (script_input (Some 320) 1))) =
    lives (ses (crash_run 300)) /\
  enemies (ses (frame (crash_run 300) (script_input (Some 320) 1))) =
    enemies (ses (crash_run 300)).
Proof.
  assert (H1 : game_over (ses (crash_run 300)) = true) by (vm_compute; reflexivity).
  assert (H2 : 0 < go_timer (ses (crash_run 300))) by (vm_compute; reflexivity).
  split; [exact H1|]. split; [exact H2|].
  apply (cooldown_ticks _ _ H1 H2).
Defined.

(** C6: in every reachable state there are at most [MAX_ENEMIES] enemies;
    and the spawn step on a session already holding [MAX_ENEMIES] enemies
    adds none and only counts [spawn_cd] down, whatever its value. *)
Theorem enemy_cap w :
  reachable w ->
  Z.of_nat (length (enemies (ses w))) <= MAX_ENEMIES /\
  (forall s i, MAX_ENEMIES <= Z.of_nat (length (enemies s)) ->
     enemies (spawn s i) = enemies s /\ spawn_cd (spawn s i) = spawn_cd s - 1).
Proof.
  intros Hw. split.
  - destruct (reachable_inv w Hw) as (_ & _ & _ & _ & H & _). exact H.
  - intros s i Hl. destruct (spawn_cases s i) as [_ [H|H]].
    + lia.
    + tauto.
Qed.

Lemma enemy_cap_witness :
  reachable (crash_run 300) /\
  Z.of_nat (length (enemies (ses (crash_run 300)))) <= MAX_ENEMIES /\
  (forall s i, MAX_ENEMIES <= Z.of_nat (length (enemies s)) ->
     enemies (spawn s i) = enemies s /\ spawn_cd (spawn s i) = spawn_cd s - 1).
Proof.
  assert (H : reachable (crash_run 300))
    by (unfold crash_run; apply script_reachable; lia).
  split; [exact H|]. apply (enemy_cap _ H).
Defined.

(** C8 (as the code has it): in a frame that starts in the game-over
    screen, unless it is the restart frame, the enemies, score, lives,
    speed and spawn countdown are unchanged and the particles are advanced
    and pruned; the restart frame replaces the session by [reset_state()]. *)
Theorem game_over_frame_frozen w i :
  game_over (ses w) = true ->
  (is_restart w i = false ->
     enemies (ses (frame w i)) = enemies (ses w) /\
     score (ses (frame w i)) = score (ses w) /\
     lives (ses (frame w i)) = lives (ses w) /\
     enemy_spd (ses (frame w i)) = enemy_spd (ses w) /\
     spawn_cd (ses (frame w i)) = spawn_cd (ses w) /\
     particles (ses (frame w i)) = particles_step (particles (ses w))) /\
  (is_restart w i = true -> ses (frame w i) = reset_state).
Proof.
  intros Hg. split.
  - intros Hr. destruct (frame_over w i Hg Hr) as (H1 & H2 & _ & _ & H5 & H6 & H7 & H8).
    repeat split; assumption.
  - apply frame_restart.
Qed.

Lemma game_over_frame_frozen_witness :
  game_over (ses (crash_run 300)) = true /\
  (is_restart (crash_run 300) (script_input None 1) = false ->
     enemies (ses (frame (crash_run 300) (script_input None 1))) =
       enemies (ses (crash_run 300)) /\
     score (ses (frame (crash_run 300) (script_input None 1))) =
       score (ses (crash_run 300)) /\
     lives (ses (frame (crash_run 300) (script_input None 1))) =
       lives (ses (crash_run 300)) /\
     enemy_spd (ses (frame (crash_run 300) (script_input None 1))) =
       enemy_spd (ses (crash_run 300)) /\
     spawn_cd (ses (frame (crash_run 300) (script_input None 1))) =
       spawn_cd (ses (crash_run 300)) /\
     particles (ses (frame (crash_run 300) (script_input None 1))) =
       particles_step (particles (ses (crash_run 300)))) /\
  (is_restart (crash_run 300) (script_input None 1) = true ->
     ses (frame (crash_run 300) (script_input None 1)) = reset_state).
Proof.
  assert (H : game_over (ses (crash_run 300)) = true) by (vm_compute; reflexivity).
  split; [exact H|]. apply (game_over_frame_frozen _ _ H).
Defined.

(** C8, counterexample: the run [crash_run] is in the game-over screen
    with no lives left after 413 frames; in the next frame the camera
    reports a hand and the frame sets [lives] back to 3. *)
Lemma restart_frame_changes_lives :
  reachable (crash_run 413) /\ valid_input (script_input (Some 320) 1) /\
  game_over (ses (crash_run 413)) = true /\
  lives (ses (crash_run 413)) = 0 /\
  lives (ses (frame (crash_run 413) (script_input (Some 320) 1))) = 3.
Proof.
  split; [unfold crash_run; apply script_reachable; lia|].
  split; [apply script_input_valid; lia|].
  vm_compute. repeat split.
Qed.

(** C9: [explode] keeps the particles already there and appends 40 new
    ones at [(x, y)], each with [life = max_life] between 25 and 50 (for
    draws in the ranges of [random.randint]); with the per-frame particle
    phase, the new particles are all gone after 50 phases, whatever other
    particles share the list. *)
Theorem explode_particles ps x y pal draw :
  (forall k, valid_pdraw (draw k)) ->
  let ps' := explode ps x y pal draw in
  let fresh := skipn (length ps) ps' in
  length ps' = (length ps + 40)%nat /\
  firstn (length ps) ps' = ps /\
  Forall (fun p => px p = inject_Z x /\ py p = inject_Z y /\
                   life p = max_life p /\ 25 <= life p <= 50) fresh /\
  (forall qs n, (50 <= n)%nat ->
     Nat.iter n particles_step (qs ++ fresh) = Nat.iter n particles_step qs).
Proof.
  intros Hd. cbv zeta. unfold explode.
  rewrite skipn_length_app, firstn_length_app.
  assert (HF : Forall (fun p => px p = inject_Z x /\ py p = inject_Z y /\
                        life p = max_life p /\ 25 <= life p <= 50)
                 (map (fun k => let d := draw k in
                        new_particle x y
                          (nth (d_color d) [fst pal; snd pal; (255, 255, 200); (255, 180, 0)]
                               (fst pal)) d) (seq 0 40))).
  { apply Forall_map, Forall_forall. intros k _.
    destruct (Hd k) as (_ & Hl & _). simpl. repeat split; lia. }
  split; [rewrite length_app, length_map, length_seq; reflexivity|].
  split; [reflexivity|]. split; [exact HF|].
  intros qs n Hn. rewrite iter_particles_step_app.
  assert (HL : Forall (fun p => life p <= 50)
                 (map (fun k => let d := draw k in
                        new_particle x y
                          (nth (d_color d) [fst pal; snd pal; (255, 255, 200); (255, 180, 0)]
                               (fst pal)) d) (seq 0 40)))
    by (eapply Forall_impl; [|exact HF]; simpl; intros; lia).
  destruct (iter_particles_life 50 n _ HL) as [H1 H2].
  specialize (H2 ltac:(lia)).
  match goal with |- _ ++ ?L = _ => destruct L as [|p rest] eqn:E end.
  - apply app_nil_r.
  - exfalso. inversion H1; inversion H2; subst. lia.
Qed.

Lemma explode_particles_witness :
  (forall k, valid_pdraw ((fun _ : nat => calm_draw) k)) /\
  let ps' := explode [] 186 500 ((220, 50, 50), (140, 20, 20)) (fun _ : nat => calm_draw) in
  let fresh := skipn (length (@nil particle)) ps' in
  length ps' = (length (@nil particle) + 40)%nat /\
  firstn (length (@nil particle)) ps' = [] /\
  Forall (fun p => px p = inject_Z 186 /\ py p = inject_Z 500 /\
                   life p = max_life p /\ 25 <= life p <= 50) fresh /\
  (forall qs n, (50 <= n)%nat ->
     Nat.iter n particles_step (qs ++ fresh) = Nat.iter n particles_step qs).
Proof.
  assert (H : forall k : nat, valid_pdraw ((fun _ : nat => calm_draw) k)).
  { intros k. unfold valid_pdraw, calm_draw; simpl. repeat split; lia. }
  split; [exact H|]. apply (explode_particles [] 186 500 _ _ H).
Defined.

(** ** Further properties of the code *)

(** [clamp] lands in [[lo, hi]] and leaves values already there alone. *)
Theorem clamp_bounds v lo hi :
  lo <= hi ->
  lo <= clamp v lo hi <= hi /\ (lo <= v <= hi -> clamp v lo hi = v).
Proof. unfold clamp. intros H. split; [lia|intros; lia]. Qed.

Lemma clamp_bounds_witness :
  0 <= 180 /\ 0 <= clamp 250 0 180 <= 180 /\ (0 <= 250 <= 180 -> clamp 250 0 180 = 250).
Proof.
  assert (H : 0 <= 180) by lia. split; [exact H|]. apply (clamp_bounds 250 0 180 H).
Defined.

(** [hand_lane] always names one of the three lanes, so [LANE_X[target_lane]]
    is in range; with no hand it is the middle lane. *)
Theorem hand_lane_range hx w :
  0 <= hand_lane hx w <= LANE_COUNT - 1 /\ (hx = None -> hand_lane hx w = 1).
Proof.
  unfold hand_lane, LANE_COUNT. split.
  - destruct hx as [h|]; [destruct (3 * h <? w); [|destruct (3 * h <? 2 * w)]|]; lia.
  - intros ->. reflexivity.
Qed.

(** Moving the hand to the right never selects a lane further left. *)
Theorem hand_lane_monotone h1 h2 w :
  h1 <= h2 -> hand_lane (Some h1) w <= hand_lane (Some h2) w.
Proof.
  intros H. unfold hand_lane.
  destruct (3 * h1 <? w) eqn:A1; destruct (3 * h1 <? 2 * w) eqn:B1;
  destruct (3 * h2 <? w) eqn:A2; destruct (3 * h2 <? 2 * w) eqn:B2;
  rewrite ?Z.ltb_lt, ?Z.ltb_ge in *; lia.
Qed.

Lemma hand_lane_monotone_witness :
  100 <= 300 /\ hand_lane (Some 100) 640 <= hand_lane (Some 300) 640.
Proof.
  assert (H : 100 <= 300) by lia. split; [exact H|]. apply (hand_lane_monotone _ _ 640 H).
Defined.

(** A car standing at the position its lane asks for ([LANE_X[l] - CAR_W//2])
    collides with an enemy of lane [l'] exactly when [l' = l] and the two
    overlap vertically: enemies in the other lanes pass it by. *)
Theorem lane_collision l l' y y' :
  0 <= l <= 2 -> 0 <= l' <= 2 ->
  colliderect (mkRect (lane_x l - CAR_W / 2) y CAR_W CAR_H)
              (mkRect (lane_x l' - ENEMY_W / 2) y' ENEMY_W ENEMY_H) = true <->
  l = l' /\ y' < y + CAR_H /\ y < y' + ENEMY_H.
Proof.
  intros Hl Hl'. unfold colliderect. cbn [rx ry rw rh].
  rewrite !andb_true_iff, !Z.ltb_lt.
  change (CAR_W / 2) with 26. change (ENEMY_W / 2) with 26.
  unfold CAR_W, CAR_H, ENEMY_W, ENEMY_H.
  assert (E : lane_x l = 186 + 213 * l /\ lane_x l' = 186 + 213 * l').
  { split; [destruct (Z.eq_dec l 0) as [->|N0];
              [reflexivity|destruct (Z.eq_dec l 1) as [->|N1];
                 [reflexivity|replace l with 2 by lia; reflexivity]]|].
    destruct (Z.eq_dec l' 0) as [->|N0];
      [reflexivity|destruct (Z.eq_dec l' 1) as [->|N1];
         [reflexivity|replace l' with 2 by lia; reflexivity]]. }
  destruct E as [-> ->]. split; intros; lia.
Qed.

Lemma lane_collision_witness :
  0 <= 0 <= 2 /\ 0 <= 1 <= 2 /\
  (colliderect (mkRect (lane_x 0 - CAR_W / 2) 492 CAR_W CAR_H)
               (mkRect (lane_x 1 - ENEMY_W / 2) 500 ENEMY_W ENEMY_H) = true <->
   0 = 1 /\ 500 < 492 + CAR_H /\ 492 < 500 + ENEMY_H).
Proof.
  assert (H1 : 0 <= 0 <= 2) by lia. assert (H2 : 0 <= 1 <= 2) by lia.
  split; [exact H1|]. split; [exact H2|]. apply (lane_collision 0 1 492 500 H1 H2).
Defined.

(** The per-frame bookkeeping fields after a frame: set by [reset_state()]
    on the restart frame, otherwise as the camera and scrolling steps left
    them (the game logic does not write them). *)
Lemma frame_bookkeeping w i :
  (is_restart w i = true -> ses (frame w i) = reset_state) /\
  (is_restart w i = false ->
     tick (ses (frame w i)) = tick (pre_logic w i) /\
     dash_off (ses (frame w i)) = dash_off (pre_logic w i) /\
     hand_x (ses (frame w i)) = hand_x (pre_logic w i) /\
     car_y (ses (frame w i)) = car_y (pre_logic w i)).
Proof.
  split; [apply frame_restart|]. intros Hr.
  destruct (game_over (ses w)) eqn:Hg.
  - rewrite frame_ses. pose proof (pre_logic_fields w i) as (_ & _ & E3 & _).
    unfold is_restart in Hr. cbv zeta in *. rewrite E3, Hg in *. cbn [negb] in *.
    unfold over_logic.
    destruct (0 <? go_timer (pre_logic w i)); cbn [negb andb] in Hr;
      destruct (hand_x (pre_logic w i)) eqn:Hh; try discriminate; simpl_ses;
      repeat split; auto.
  - rewrite (frame_play w i Hg). cbv zeta. rewrite play_logic_eq. simpl_ses.
    set (s1 := steer (pre_logic w i) (frame_w (cam_world w i))).
    destruct (loop_fields (car_rect s1) (in_boom i) (enemies (spawn s1 i)) 0 (spawn s1 i))
      as (H1 & _ & _ & _ & _ & H6 & H7 & H8).
    rewrite H1, H6, H7, H8.
    unfold spawn. cbv zeta. destruct (_ && _); simpl_ses; repeat split.
Qed.

(** The scrolling step of a frame started with a non-negative offset and
    speed. *)
Lemma dash_step w i :
  (0 <= dash_off (ses w))%Q -> 0 <= enemy_spd (ses w) ->
  (0 <= dash_off (ses (frame w i)) < inject_Z (DASH_LEN + DASH_GAP))%Q.
Proof.
  intros Hd Hv.
  destruct (is_restart w i) eqn:Hr.
  - rewrite (proj1 (frame_bookkeeping w i) Hr). simpl. split; [lra|].
    unfold Qlt; simpl; lia.
  - destruct (proj2 (frame_bookkeeping w i) Hr) as (_ & -> & _).
    unfold pre_logic, scroll. simpl_ses.
    assert (E : dash_off (ses (cam_world w i)) = dash_off (ses w) /\
                enemy_spd (ses (cam_world w i)) = enemy_spd (ses w)).
    { unfold cam_world, camera.
      destruct (in_frame i) as [[fw hx]|]; [destruct (_ =? 0)|]; split; reflexivity. }
    destruct E as [-> ->].
    apply pymod_range; [|unfold Qlt; simpl; lia].
    assert (Hc : (0 <= c06)%Q).
    { destruct (round64_sign (3 # 5)) as [C _]. destruct (C ltac:(lra)). assumption. }
    assert (Hp : (0 <= inject_Z (enemy_spd (ses w)) / 2 * c06)%Q).
    { apply Qmult_le_0_compat; [|exact Hc]. apply Qle_shift_div_l; [unfold Qlt; simpl; lia|].
      rewrite Qmult_0_l. change 0%Q with (inject_Z 0). rewrite <- Zle_Qle. exact Hv. }
    destruct (round64_sign (inject_Z (enemy_spd (ses w)) / 2 * c06)) as [A _].
    destruct (A Hp) as [A1 _].
    destruct (round64_sign (dash_off (ses w) +
                            round64 (inject_Z (enemy_spd (ses w)) / 2 * c06))) as [B _].
    apply B. lra.
Qed.

Lemma reachable_dash w : reachable w -> (0 <= dash_off (ses w))%Q.
Proof.
  induction 1 as [w0|w i Hw IH Hi].
  - apply Qle_refl.
  - destruct (reachable_inv w Hw) as (_ & _ & _ & Hs & _).
    pose proof (speed_rel_bounds _ Hs) as Hb.
    apply dash_step; [exact IH|lia].
Qed.

(** In a reachable state, the frame leaves the scrolling offset [dash_off]
    in [[0, DASH_LEN + DASH_GAP)]: the offset is never negative, so the
    float [%] is the exact remainder. *)
Theorem dash_off_range w i :
  reachable w ->
  (0 <= dash_off (ses (frame w i)) /\
   dash_off (ses (frame w i)) < inject_Z (DASH_LEN + DASH_GAP))%Q.
Proof.
  intros Hw. destruct (reachable_inv w Hw) as (_ & _ & _ & Hs & _).
  pose proof (speed_rel_bounds _ Hs) as Hb.
  apply dash_step; [apply reachable_dash; exact Hw|lia].
Qed.

Lemma dash_off_range_witness :
  reachable (dodge_run 100) /\
  (0 <= dash_off (ses (frame (dodge_run 100) (script_input None 0))) /\
   dash_off (ses (frame (dodge_run 100) (script_input None 0))) < inject_Z (DASH_LEN + DASH_GAP))%Q.
Proof.
  assert (H : reachable (dodge_run 100)) by (unfold dodge_run; apply script_reachable; lia).
  split; [exact H|]. apply (dash_off_range _ _ H).
Defined.

(** [s['tick']] counts frames: every frame adds 1 to it, except the restart
    frame, whose [reset_state()] sets it back to 0. *)
Theorem tick_counts w i :
  tick (ses (frame w i)) = if is_restart w i then 0 else tick (ses w) + 1.
Proof.
  destruct (is_restart w i) eqn:Hr.
  - rewrite (proj1 (frame_bookkeeping w i) Hr). reflexivity.
  - destruct (proj2 (frame_bookkeeping w i) Hr) as (-> & _).
    unfold pre_logic, scroll, cam_world, camera.
    destruct (in_frame i) as [[fw hx]|]; [destruct (_ =? 0)|]; reflexivity.
Qed.

(** The camera is read on every frame but the hand is looked for only on
    every [CAM_SKIP]-th one: [cam_tick] grows by 1 per frame, and on a frame
    where [cam_tick + 1] is not a multiple of [CAM_SKIP], or the read fails,
    [hand_x] and the frame width [w] keep their values (unless the frame is
    the restart frame). *)
Theorem camera_skip w i :
  cam_tick (frame w i) = cam_tick w + 1 /\
  ((cam_tick w + 1) mod CAM_SKIP <> 0 \/ in_frame i = None ->
   frame_w (frame w i) = frame_w w /\
   (is_restart w i = false -> hand_x (ses (frame w i)) = hand_x (ses w))).
Proof.
  split.
  - unfold frame, camera. cbn [cam_tick].
    destruct (in_frame i) as [[fw hx]|]; [destruct (_ =? 0)|]; reflexivity.
  - intros Hc.
    assert (Hw : cam_world w i = mkWorld (set_tick (ses w) (tick (ses w) + 1))
                                         (cam_tick w + 1) (frame_w w)).
    { unfold cam_world, camera. cbn [cam_tick ses frame_w].
      destruct (in_frame i) as [[fw hx]|]; [|reflexivity].
      destruct Hc as [Hc|Hc]; [|discriminate].
      apply Z.eqb_neq in Hc. rewrite Hc. reflexivity. }
    split.
    + change (frame_w (frame w i)) with (frame_w (cam_world w i)). rewrite Hw. reflexivity.
    + intros Hr. destruct (proj2 (frame_bookkeeping w i) Hr) as (_ & _ & -> & _).
      unfold pre_logic. rewrite Hw. reflexivity.
Qed.

(** *** At most one life and one point per frame *)

Lemma calm_score car boom es : forall n s,
  ry car = 492 -> rh car = 84 ->
  Forall (fun e => ey e + enemy_spd s <= 2 * WIN_H) es ->
  ForallOrdPairs gap_ok es ->
  score (fst (fst (enemy_loop car boom n es s))) = score s.
Proof.
  induction es as [|e es IH]; intros n s Hy Hh HF HO; cbn [enemy_loop].
  - reflexivity.
  - inversion HF as [|? ? He HF']; subst. inversion HO as [|? ? Hg HO']; subst.
    destruct (colliderect car (mkRect (ecx e - ENEMY_W / 2)
                (int_of_half (ey e + enemy_spd s)) ENEMY_W ENEMY_H)) eqn:Hc.
    + pose proof (hit_y _ _ _ Hy Hh Hc) as Hb.
      pose proof (body_hit car boom n e s Hc) as Hbody.
      destruct (enemy_body car boom n e s) as [[s1 e'] r].
      destruct Hbody as [-> [-> [Hv [Hsc _]]]].
      assert (HF2 : Forall (fun e0 => ey e0 + enemy_spd s1 <= 817) es).
      { rewrite Hv. eapply Forall_impl; [|exact Hg].
        unfold gap_ok, GAP; intros; lia. }
      destruct (nohit_loop car boom es (S n) s1 Hy Hh HF2) as [H1 _].
      rewrite H1. exact Hsc.
    + rewrite (body_stay car boom n e s Hc He).
      specialize (IH (S n) s Hy Hh HF' HO').
      destruct (enemy_loop car boom (S n) es s) as [[s2 es2] tr].
      exact IH.
Qed.

Lemma top_score car boom es s :
  ry car = 492 -> rh car = 84 -> speed_rel s ->
  Forall (fun e => ey e <= 2 * WIN_H) es ->
  ForallOrdPairs gap_ok es ->
  score (fst (fst (enemy_loop car boom 0 es s))) <= score s + 1.
Proof.
  intros Hy Hh Hsr HF HO.
  pose proof (speed_rel_bounds s Hsr) as Hv. unfold MAX_SPEED in Hv.
  destruct es as [|e0 rest]; cbn [enemy_loop]; [simpl; lia|].
  inversion HF as [|? ? He0 HF']; subst. inversion HO as [|? ? Hg HO']; subst.
  pose proof (body_speed car boom 0 e0 s Hsr) as [_ Hst1].
  pose proof (body_score car boom 0 e0 s) as Hsc.
  destruct (enemy_body car boom 0 e0 s) as [[s1 e'] r] eqn:Eb.
  cbn [fst] in Hst1, Hsc. destruct Hst1 as [_ [Hv1 Hv1']]. unfold MAX_SPEED in Hv1'.
  assert (HF2 : Forall (fun e => ey e + enemy_spd s1 <= 2 * WIN_H) rest).
  { eapply Forall_impl; [|exact Hg]. unfold gap_ok, GAP, WIN_H in *; intros; lia. }
  pose proof (calm_score car boom rest 1 s1 Hy Hh HF2 HO') as Hc.
  destruct (enemy_loop car boom 1 rest s1) as [[s2 es2] tr].
  cbn [fst] in *. rewrite Hc.
  destruct (colliderect _ _); [|destruct (_ <? _)]; lia.
Qed.

(** The enemies handed to the loop of a playing frame. *)
Lemma spawn_pre s i :
  inv_ses s ->
  Forall (fun e => ey e <= 2 * WIN_H) (enemies (spawn s i)) /\
  ForallOrdPairs gap_ok (enemies (spawn s i)).
Proof.
  intros (Hcy & Hlv & Hgo & Hsr & Hlen & Hy & Hgap & Hcd).
  destruct (spawn_cases s i) as [_ Hsp].
  destruct Hsp as [(Hc & Hl & (ne & Hne & Hes) & _) | (_ & Hes & _)];
    rewrite Hes; [|tauto].
  assert (Hold : Forall (fun e => 168 <= ey e) (enemies s)).
  { eapply Forall_impl; [|exact Hcd]. unfold GAP, ENEMY_H; intros e He.
    replace (Z.max 0 (spawn_cd s - 1)) with 0 in He by lia. lia. }
  split.
  - apply Forall_app; split; auto. constructor; auto. rewrite Hne. unfold WIN_H, ENEMY_H; lia.
  - apply FOP_app_last; auto. eapply Forall_impl; [|exact Hold].
    unfold gap_ok, GAP; rewrite Hne; unfold ENEMY_H; intros; lia.
Qed.

Lemma play_step s w i :
  inv_ses s ->
  lives_step s (play_logic s w i) /\ score (play_logic s w i) <= score s + 1.
Proof.
  intros Hinv. rewrite play_logic_eq. simpl_ses.
  set (s1 := steer s w).
  assert (Hinv1 : inv_ses s1) by (apply (inv_transfer s); [apply steer_fields|exact Hinv]).
  destruct (spawn_pre s1 i Hinv1) as [Hy2 Hgap2].
  destruct (spawn_cases s1 i) as [Hf2 _].
  destruct Hinv1 as (Hcy & _ & _ & Hsr1 & _).
  unfold inv_fields_eq in Hf2. simpl_ses.
  destruct Hf2 as (F1 & F2 & F3 & F4 & F5 & _ & _).
  assert (Hsr2 : speed_rel (spawn s1 i)) by (unfold speed_rel in *; rewrite F4, F5; exact Hsr1).
  assert (Hcar1 : ry (car_rect s1) = 492) by (unfold car_rect; simpl; exact Hcy).
  assert (Hcar2 : rh (car_rect s1) = 84) by reflexivity.
  destruct (top_loop _ (in_boom i) _ _ Hcar1 Hcar2 Hsr2 Hy2 Hgap2) as [Hls _].
  pose proof (top_score _ (in_boom i) _ _ Hcar1 Hcar2 Hsr2 Hy2 Hgap2) as Hsc.
  unfold lives_step in *. rewrite F2, F3 in Hls. rewrite F4 in Hsc.
  split; [exact Hls|exact Hsc].
Qed.

(** A frame costs at most one life and earns at most one point: in a
    reachable state, outside the restart frame, [lives] drops by 0 or 1 and
    [score] grows by 0 or 1. *)
Theorem frame_one_step w i :
  reachable w -> is_restart w i = false ->
  lives (ses w) - 1 <= lives (ses (frame w i)) <= lives (ses w) /\
  score (ses w) <= score (ses (frame w i)) <= score (ses w) + 1.
Proof.
  intros Hw Hr. pose proof (reachable_inv w Hw) as Hinv.
  pose proof (frame_score w i Hr) as Hlo.
  destruct (game_over (ses w)) eqn:Hg.
  - destruct (frame_over w i Hg Hr) as (H1 & H2 & _). lia.
  - rewrite (frame_play w i Hg) in *. cbv zeta in *. simpl_ses.
    pose proof (pre_logic_fields w i) as (E1 & E2 & _).
    assert (Hinv' : inv_ses (pre_logic w i)).
    { eapply inv_transfer; [|exact Hinv].
      destruct (pre_logic_fields w i) as (G1 & G2 & G3 & _ & G5 & G6 & G7 & _).
      unfold inv_fields_eq. repeat split; auto.
      unfold pre_logic, cam_world, camera.
      destruct (in_frame i) as [[fw hx]|]; [destruct (_ =? 0)|]; reflexivity. }
    destruct (play_step (pre_logic w i) (frame_w (cam_world w i)) i Hinv') as [Hl Hs].
    unfold lives_step in Hl. destruct Hl as [[Hl _]|[Hl _]]; lia.
Qed.

Lemma frame_one_step_witness :
  reachable (dodge_run 500) /\ is_restart (dodge_run 500) (script_input None 0) = false /\
  lives (ses (dodge_run 500)) - 1 <= lives (ses (frame (dodge_run 500) (script_input None 0)))
    <= lives (ses (dodge_run 500)) /\
  score (ses (dodge_run 500)) <= score (ses (frame (dodge_run 500) (script_input None 0)))
    <= score (ses (dodge_run 500)) + 1.
Proof.
  assert (H1 : reachable (dodge_run 500)) by (unfold dodge_run; apply script_reachable; lia).
  assert (H2 : is_restart (dodge_run 500) (script_input None 0) = false)
    by (vm_compute; reflexivity).
  split; [exact H1|]. split; [exact H2|]. apply (frame_one_step _ _ H1 H2).
Defined.

(** *** Points and retired enemies *)

Lemma spawn_keeps2 s i :
  car_x_px (spawn s i) = car_x_px s /\ particles (spawn s i) = particles s.
Proof. unfold spawn; cbv zeta. destruct (_ && _); simpl_ses; split; reflexivity. Qed.

Lemma no_retire car v l :
  Forall (fun e => ey e + v <= 2 * WIN_H) l -> filter (retires car v) l = [].
Proof.
  induction 1 as [|x l Hx _ IH]; [reflexivity|]. cbn [filter].
  unfold retires at 1. cbv zeta.
  replace (2 * WIN_H <? ey x + v) with false by (symmetry; apply Z.ltb_ge; lia).
  rewrite andb_false_r. exact IH.
Qed.

Lemma top_retired car boom es s :
  ry car = 492 -> rh car = 84 -> speed_rel s ->
  Forall (fun e => ey e <= 2 * WIN_H) es -> ForallOrdPairs gap_ok es ->
  score (fst (fst (enemy_loop car boom 0 es s))) = score s + retired car (enemy_spd s) es.
Proof.
  intros Hy Hh Hsr HF HO.
  pose proof (speed_rel_bounds s Hsr) as Hv. unfold MAX_SPEED in Hv.
  destruct es as [|e0 rest]; cbn [enemy_loop]; [unfold retired; simpl; lia|].
  inversion HF as [|? ? He0 HF']; subst. inversion HO as [|? ? Hg HO']; subst.
  pose proof (body_speed car boom 0 e0 s Hsr) as [_ Hst1].
  pose proof (body_score car boom 0 e0 s) as Hsc.
  destruct (enemy_body car boom 0 e0 s) as [[s1 e'] r] eqn:Eb.
  cbn [fst] in Hst1, Hsc. destruct Hst1 as [_ [Hv1 Hv1']]. unfold MAX_SPEED in Hv1'.
  assert (HF2 : Forall (fun e => ey e + enemy_spd s1 <= 2 * WIN_H) rest).
  { eapply Forall_impl; [|exact Hg]. unfold gap_ok, GAP, WIN_H in *; intros; lia. }
  assert (HF3 : Forall (fun e => ey e + enemy_spd s <= 2 * WIN_H) rest).
  { eapply Forall_impl; [|exact HF2]. intros a Ha; cbv beta in *; lia. }
  pose proof (calm_score car boom rest 1 s1 Hy Hh HF2 HO') as Hc.
  destruct (enemy_loop car boom 1 rest s1) as [[s2 es2] tr].
  cbn [fst] in *. rewrite Hc, Hsc.
  unfold retired. cbn [filter]. rewrite (no_retire car _ rest HF3).
  unfold retires at 1. cbv zeta.
  destruct (colliderect _ _); [|destruct (_ <? _)]; simpl; lia.
Qed.

Lemma pre_inv w i : inv_ses (ses w) -> inv_ses (pre_logic w i).
Proof.
  intros Hinv. eapply inv_transfer; [|exact Hinv].
  destruct (pre_logic_fields w i) as (G1 & G2 & G3 & _ & G5 & G6 & G7 & _).
  unfold inv_fields_eq. repeat split; auto.
  unfold pre_logic, cam_world, camera.
  destruct (in_frame i) as [[fw hx]|]; [destruct (_ =? 0)|]; reflexivity.
Qed.

Lemma frame_retired w i :
  inv_ses (ses w) -> game_over (ses w) = false ->
  score (ses (frame w i)) =
    score (ses w) + retired (car_rect (ses (frame w i))) (enemy_spd (ses w)) (enemies (ses w)) /\
  retired (car_rect (ses (frame w i))) (enemy_spd (ses w)) (enemies (ses w)) <= 1.
Proof.
  intros Hinv Hg.
  pose proof (pre_inv w i Hinv) as Hinv0.
  pose proof (pre_logic_fields w i) as (E1 & _ & _ & _ & E5 & E6 & _).
  rewrite (frame_play w i Hg). cbv zeta. rewrite play_logic_eq.
  set (s0 := pre_logic w i) in *.
  set (s1 := steer s0 (frame_w (cam_world w i))).
  assert (Hinv1 : inv_ses s1) by (apply (inv_transfer s0); [apply steer_fields|exact Hinv0]).
  assert (Es : score s1 = score (ses w) /\ enemy_spd s1 = enemy_spd (ses w) /\
               enemies s1 = enemies (ses w)).
  { unfold s1, steer. cbv zeta. simpl_ses. rewrite <- E1, <- E6, <- E5. auto. }
  destruct Es as (Es1 & Es2 & Es3).
  destruct (spawn_pre s1 i Hinv1) as [Hy2 Hgap2].
  destruct (spawn_cases s1 i) as [Hf2 Hsp].
  pose proof (spawn_keeps2 s1 i) as [Kx _].
  destruct Hinv1 as (Hcy & _ & _ & Hsr1 & _).
  unfold inv_fields_eq in Hf2. simpl_ses.
  destruct Hf2 as (F1 & F2 & F3 & F4 & F5 & _ & _).
  assert (Hsr2 : speed_rel (spawn s1 i)) by (unfold speed_rel in *; rewrite F4, F5; exact Hsr1).
  assert (Hcar1 : ry (car_rect s1) = 492) by (unfold car_rect; simpl; exact Hcy).
  assert (Hcar2 : rh (car_rect s1) = 84) by reflexivity.
  pose proof (top_retired _ (in_boom i) _ _ Hcar1 Hcar2 Hsr2 Hy2 Hgap2) as Hr.
  pose proof (top_score _ (in_boom i) _ _ Hcar1 Hcar2 Hsr2 Hy2 Hgap2) as Hsc.
  rewrite Hr in Hsc.
  assert (Hret : retired (car_rect s1) (enemy_spd (spawn s1 i)) (enemies (spawn s1 i)) =
                 retired (car_rect s1) (enemy_spd (ses w)) (enemies (ses w))).
  { rewrite F5, Es2.
    destruct Hsp as [(_ & _ & (ne & Hne & Hes) & _) | (_ & Hes & _)];
      rewrite Hes, Es3; [|reflexivity].
    pose proof (speed_rel_bounds _ Hsr1) as Hv. rewrite Es2 in Hv. unfold MAX_SPEED in Hv.
    unfold retired. rewrite filter_app, length_app.
    replace (filter (retires (car_rect s1) (enemy_spd (ses w))) [ne]) with (@nil enemy).
    - rewrite Nat.add_0_r. reflexivity.
    - symmetry. apply no_retire. constructor; [|constructor].
      rewrite Hne. unfold ENEMY_H, WIN_H. lia. }
  destruct (loop_fields (car_rect s1) (in_boom i) (enemies (spawn s1 i)) 0 (spawn s1 i))
    as (L1 & _ & _ & L4 & _).
  set (s3 := fst (fst (enemy_loop (car_rect s1) (in_boom i) 0 (enemies (spawn s1 i)) (spawn s1 i)))) in *.
  assert (Hc : car_rect (set_particles (set_enemies s3 (loop_kept (car_rect s1) (in_boom i) 0
                 (enemies (spawn s1 i)) (spawn s1 i))) (particles_step (particles s3)))
               = car_rect s1).
  { unfold car_rect. simpl_ses. rewrite L1, L4, Kx, F1. reflexivity. }
  rewrite Hc. simpl_ses. rewrite Hr, F4, Hret, Es1. rewrite Hret, F4, Es1 in Hsc.
  split; [reflexivity|lia].
Qed.

(** C10: a frame that is not the restart frame never lowers the score and
    leaves it unchanged in the game-over screen; in a playing frame of a
    reachable state the score grows by exactly the number of enemies that
    leave the window below without hitting the (steered) car, and that
    number is 0 or 1. *)
Theorem score_monotone w i :
  is_restart w i = false ->
  score (ses w) <= score (ses (frame w i)) /\
  (game_over (ses w) = true -> score (ses (frame w i)) = score (ses w)) /\
  (reachable w -> game_over (ses w) = false ->
     score (ses (frame w i)) =
       score (ses w) + retired (car_rect (ses (frame w i))) (enemy_spd (ses w)) (enemies (ses w)) /\
     retired (car_rect (ses (frame w i))) (enemy_spd (ses w)) (enemies (ses w)) <= 1).
Proof.
  intros Hr. split; [apply frame_score; exact Hr|]. split.
  - intros Hg. destruct (frame_over w i Hg Hr) as [H _]. exact H.
  - intros Hw Hg. apply frame_retired; [apply reachable_inv; exact Hw|exact Hg].
Qed.

Lemma score_monotone_witness :
  is_restart (dodge_run 500) (script_input None 0) = false /\
  score (ses (dodge_run 500)) <= score (ses (frame (dodge_run 500) (script_input None 0))) /\
  (game_over (ses (dodge_run 500)) = true ->
     score (ses (frame (dodge_run 500) (script_input None 0))) = score (ses (dodge_run 500))) /\
  (reachable (dodge_run 500) -> game_over (ses (dodge_run 500)) = false ->
     score (ses (frame (dodge_run 500) (script_input None 0))) =
       score (ses (dodge_run 500)) +
       retired (car_rect (ses (frame (dodge_run 500) (script_input None 0))))
         (enemy_spd (ses (dodge_run 500))) (enemies (ses (dodge_run 500))) /\
     retired (car_rect (ses (frame (dodge_run 500) (script_input None 0))))
       (enemy_spd (ses (dodge_run 500))) (enemies (ses (dodge_run 500))) <= 1).
Proof.
  assert (H : is_restart (dodge_run 500) (script_input None 0) = false)
    by (vm_compute; reflexivity).
  split; [exact H|]. apply (score_monotone _ _ H).
Defined.

(** *** A second invariant: car position, particles, spawn countdown *)

Definition particle_ok (p : particle) : Prop :=
  life p <= max_life p /\ 25 <= max_life p <= 50.

Definition inv2 (s : session) : Prop :=
  (inject_Z 160 <= car_x_px s <= inject_Z 586)%Q /\
  Forall (fun p => 0 < life p /\ particle_ok p) (particles s) /\
  Forall (fun e => - 2 * ENEMY_H <= ey e) (enemies s) /\
  1 <= spawn_cd s <= 78.

(** The first of the enemies is the lowest one, at least [GAP] per enemy
    below the top bound. *)
Lemma gap_head lo l :
  ForallOrdPairs gap_ok l -> Forall (fun e => lo <= ey e) l ->
  match l with
  | [] => True
  | e :: _ => lo + GAP * (Z.of_nat (length l) - 1) <= ey e
  end.
Proof.
  induction l as [|e rest IH]; intros HO HF; [exact I|].
  inversion HO as [|? ? Hg HO']; subst. inversion HF as [|? ? He HF']; subst.
  specialize (IH HO' HF').
  destruct rest as [|e' rest']; [simpl; lia|].
  inversion Hg as [|? ? Hg1 _]; subst. unfold gap_ok in Hg1.
  cbn [length] in *. lia.
Qed.

Lemma few_enemies l :
  ForallOrdPairs gap_ok l -> Forall (fun e => - 2 * ENEMY_H <= ey e) l ->
  Forall (fun e => ey e <= 2 * WIN_H) l -> (length l <= 5)%nat.
Proof.
  intros HO HF HU. pose proof (gap_head _ l HO HF) as H.
  destruct l as [|e rest]; [simpl; lia|].
  inversion HU as [|? ? Hu _]; subst.
  unfold GAP, ENEMY_H, WIN_H in *. cbn [length] in *. lia.
Qed.

Lemma explode_ok ps x y pal draw :
  (forall k, valid_pdraw (draw k)) ->
  Forall particle_ok ps -> Forall particle_ok (explode ps x y pal draw).
Proof.
  intros Hd Hps. unfold explode. apply Forall_app; split; [exact Hps|].
  apply Forall_map, Forall_forall. intros k _.
  destruct (Hd k) as (_ & Hl & _). unfold particle_ok; simpl; lia.
Qed.

Lemma loop_particles car boom es : forall n s,
  (forall n k, valid_pdraw (boom n k)) ->
  Forall particle_ok (particles s) ->
  Forall particle_ok (particles (fst (fst (enemy_loop car boom n es s)))).
Proof.
  induction es as [|e es IH]; intros n s Hb Hs; cbn [enemy_loop]; [exact Hs|].
  assert (H1 : Forall particle_ok (particles (fst (fst (enemy_body car boom n e s))))).
  { body_cases; auto; apply explode_ok; auto. }
  destruct (enemy_body car boom n e s) as [[s1 e'] r].
  specialize (IH (S n) s1 Hb H1).
  destruct (enemy_loop car boom (S n) es s1) as [[s2 es2] tr]. exact IH.
Qed.

Lemma particles_step_ok l :
  Forall particle_ok l ->
  Forall (fun p => 0 < life p /\ particle_ok p) (particles_step l).
Proof.
  intros H. unfold particles_step. apply Forall_forall. intros p Hp.
  apply filter_In in Hp as [Hp Hpos]. apply Z.ltb_lt in Hpos.
  apply in_map_iff in Hp as [q [Hq Hin]]. subst p.
  rewrite Forall_forall in H. specialize (H q Hin).
  unfold particle_ok, update in *; cbn [life max_life] in *. lia.
Qed.

Lemma weaken_particles l :
  Forall (fun p => 0 < life p /\ particle_ok p) l -> Forall particle_ok l.
Proof. apply Forall_impl. tauto. Qed.

Lemma lane_target_range hx fw :
  (inject_Z 160 <= inject_Z (lane_x (hand_lane hx fw) - CAR_W / 2) <= inject_Z 586)%Q.
Proof.
  destruct (hand_lane_range hx fw) as [H _]. unfold LANE_COUNT in H.
  rewrite <- !Zle_Qle.
  destruct (Z.eq_dec (hand_lane hx fw) 0) as [->|N0];
    [|destruct (Z.eq_dec (hand_lane hx fw) 1) as [->|N1];
        [|replace (hand_lane hx fw) with 2 by lia]];
    vm_compute; split; discriminate.
Qed.

Lemma steer_car_x s w :
  (inject_Z 160 <= car_x_px s <= inject_Z 586)%Q ->
  (inject_Z 160 <= car_x_px (steer s w) <= inject_Z 586)%Q.
Proof.
  intros H. unfold steer. cbv zeta. simpl_ses.
  pose proof (lane_target_range (hand_x s) w) as Ht.
  apply lerp_range; auto; vm_compute; reflexivity.
Qed.

Lemma inv2_reset : inv2 reset_state.
Proof.
  unfold inv2. simpl. split; [|split; [constructor|split; [constructor|lia]]].
  rewrite <- !Zle_Qle. vm_compute. split; discriminate.
Qed.

Lemma play_inv2 s w i :
  inv_ses s -> inv2 s -> valid_input i ->
  let s' := play_logic s w i in
  (inject_Z 160 <= car_x_px s' <= inject_Z 586)%Q /\
  Forall particle_ok (particles s') /\
  Forall (fun e => - 2 * ENEMY_H <= ey e) (enemies s') /\
  1 <= spawn_cd s' <= 78.
Proof.
  intros Hinv H2 Hi. cbv zeta. rewrite play_logic_eq. simpl_ses.
  set (s1 := steer s w).
  assert (Hinv1 : inv_ses s1) by (apply (inv_transfer s); [apply steer_fields|exact Hinv]).
  destruct (spawn_pre s1 i Hinv1) as [Hy2 Hgap2].
  destruct (spawn_cases s1 i) as [Hf2 Hsp].
  pose proof (spawn_keeps2 s1 i) as [Kx Kp].
  set (s2 := spawn s1 i) in *.
  destruct Hinv1 as (Hcy & _ & _ & Hsr1 & _ & HU1 & HO1 & _).
  unfold inv_fields_eq in Hf2. simpl_ses.
  destruct Hf2 as (F1 & F2 & F3 & F4 & F5 & _ & _).
  assert (Hsr2 : speed_rel s2) by (unfold speed_rel in *; rewrite F4, F5; exact Hsr1).
  pose proof (speed_rel_bounds s2 Hsr2) as Hv2. unfold MAX_SPEED in Hv2.
  assert (Hcar1 : ry (car_rect s1) = 492) by (unfold car_rect; simpl; exact Hcy).
  assert (Hcar2 : rh (car_rect s1) = 84) by reflexivity.
  destruct (top_loop _ (in_boom i) _ _ Hcar1 Hcar2 Hsr2 Hy2 Hgap2) as [_ Hk].
  destruct Hk as (_ & _ & K3 & _).
  destruct (loop_fields (car_rect s1) (in_boom i) (enemies s2) 0 s2)
    as (_ & L2 & _ & L4 & _).
  rewrite L2, L4.
  destruct H2 as (Hx & Hp & Hlo & Hcd).
  assert (Hlo1 : Forall (fun e => - 2 * ENEMY_H <= ey e) (enemies s1)) by exact Hlo.
  assert (Hlen : (length (enemies s1) <= 5)%nat) by (apply few_enemies; auto).
  split; [|split; [|split]].
  - rewrite Kx. apply steer_car_x. exact Hx.
  - apply loop_particles; [destruct Hi as (_ & _ & _ & Hb); exact Hb|].
    rewrite Kp. apply weaken_particles. exact Hp.
  - apply Forall_forall. intros e' Hin. rewrite Forall_forall in K3.
    destruct (K3 e' Hin) as [e [Hine Hle]].
    assert (He : - 2 * ENEMY_H <= ey e).
    { destruct Hsp as [(_ & _ & (ne & Hne & Hes) & _) | (_ & Hes & _)];
        rewrite Hes in Hine.
      - apply in_app_or in Hine. destruct Hine as [Hold|[<-|[]]].
        + rewrite Forall_forall in Hlo1. apply Hlo1; exact Hold.
        + lia.
      - rewrite Forall_forall in Hlo1. apply Hlo1; exact Hine. }
    lia.
  - destruct Hi as (_ & _ & Hj & _).
    assert (Hsc : 0 <= score s1) by (destruct Hsr1; assumption).
    assert (Hc1 : spawn_cd s1 = spawn_cd s) by reflexivity.
    destruct Hsp as [(_ & _ & _ & Hc) | (Hn & _ & Hc)]; rewrite Hc.
    + Z.div_mod_to_equations. lia.
    + unfold MAX_ENEMIES in Hn. simpl_ses. lia.
Qed.

Lemma frame_inv2 w i :
  inv_ses (ses w) -> inv2 (ses w) -> valid_input i -> inv2 (ses (frame w i)).
Proof.
  intros H1 H2 Hi. rewrite frame_ses. cbv zeta.
  pose proof (pre_logic_fields w i) as (E1 & E2 & E3 & E4 & E5 & E6 & E7 & E8).
  assert (Hinv : inv_ses (pre_logic w i)).
  { eapply inv_transfer; [|exact H1]. unfold inv_fields_eq. repeat split; auto.
    unfold pre_logic, cam_world, camera.
    destruct (in_frame i) as [[fw hx]|]; [destruct (_ =? 0)|]; reflexivity. }
  assert (Hinv2 : inv2 (pre_logic w i)).
  { unfold inv2 in *. rewrite E5, E7, E8.
    replace (car_x_px (pre_logic w i)) with (car_x_px (ses w)); [exact H2|].
    unfold pre_logic, cam_world, camera.
    destruct (in_frame i) as [[fw hx]|]; [destruct (_ =? 0)|]; reflexivity. }
  clear E1 E2 E3 E4 E5 E6 E7 E8 H1 H2.
  destruct (game_over (pre_logic w i)) eqn:Hg; cbn [negb].
  - unfold over_logic.
    destruct (0 <? go_timer (pre_logic w i)); [|destruct (hand_x (pre_logic w i))].
    + destruct Hinv2 as (Hx & Hp & Hlo & Hcd). unfold inv2; simpl_ses.
      split; [exact Hx|]. split; [apply particles_step_ok, weaken_particles; exact Hp|].
      split; assumption.
    + pose proof inv2_reset as (Hx & Hp & Hlo & Hcd). unfold inv2; simpl_ses.
      split; [exact Hx|]. split; [constructor|]. split; assumption.
    + destruct Hinv2 as (Hx & Hp & Hlo & Hcd). unfold inv2; simpl_ses.
      split; [exact Hx|]. split; [apply particles_step_ok, weaken_particles; exact Hp|].
      split; assumption.
  - destruct (play_inv2 (pre_logic w i) (frame_w (cam_world w i)) i Hinv Hinv2 Hi)
      as (Hx & Hp & Hlo & Hcd).
    unfold inv2; simpl_ses.
    split; [exact Hx|]. split; [apply particles_step_ok; exact Hp|]. split; assumption.
Qed.

Lemma reachable_inv2 w : reachable w -> inv2 (ses w).
Proof.
  intros H. induction H.
  - apply inv2_reset.
  - apply frame_inv2; auto. apply reachable_inv; exact H.
Qed.

(** *** The slide of the car in binary64 *)










(** *** Deleting the marked enemies *)

(** The list without the elements at the positions listed in [t], positions
    counted from [k]. *)
Fixpoint keep_unmarked {A} (t : list nat) (k : nat) (l : list A) : list A :=
  match l with
  | [] => []
  | x :: l' => (if existsb (Nat.eqb k) t then [] else [x]) ++ keep_unmarked t (S k) l'
  end.

Lemma keep_unmarked_nil {A} k (l : list A) : keep_unmarked [] k l = l.
Proof. revert k; induction l as [|x l IH]; intros k; simpl; [|rewrite IH]; reflexivity. Qed.

Lemma existsb_shift k u : existsb (Nat.eqb (S k)) (map S u) = existsb (Nat.eqb k) u.
Proof. induction u as [|a u IH]; [reflexivity|]. cbn [map existsb]. rewrite IH. reflexivity. Qed.

Lemma keep_unmarked_shift {A} u : forall k (l : list A),
  keep_unmarked (map S u) (S k) l = keep_unmarked u k l /\
  keep_unmarked (0%nat :: map S u) (S k) l = keep_unmarked u k l.
Proof.
  intros k l. revert k. induction l as [|x l IH]; intros k; [split; reflexivity|].
  cbn [keep_unmarked]. destruct (IH (S k)) as [H1 H2].
  rewrite H1, H2. rewrite existsb_shift. split; [reflexivity|].
  change (existsb (Nat.eqb (S k)) (0%nat :: map S u))
    with (Nat.eqb (S k) 0 || existsb (Nat.eqb (S k)) (map S u)).
  rewrite existsb_shift. reflexivity.
Qed.

Lemma remove_indices_nil {A} t : remove_indices t (@nil A) = [].
Proof.
  unfold remove_indices. generalize (rev t). intros r.
  induction r as [|j r IH]; [reflexivity|]. cbn [fold_left].
  replace (delete_at j (@nil A)) with (@nil A) by (destruct j; reflexivity). exact IH.
Qed.

Lemma sorted_shift t :
  StronglySorted lt t -> Forall (fun j => 0 < j)%nat t ->
  t = map S (map pred t) /\ StronglySorted lt (map pred t).
Proof.
  induction 1 as [|a t Hs IH Ha]; intros Hpos; [split; [reflexivity|constructor]|].
  inversion Hpos as [|? ? Ha0 Hpos']; subst.
  destruct (IH Hpos') as [E Hs'].
  split.
  - cbn [map]. rewrite <- E. f_equal. lia.
  - cbn [map]. constructor; [exact Hs'|].
    apply Forall_map. eapply Forall_impl; [|apply Forall_and; [exact Ha|exact Hpos']].
    simpl; intros; lia.
Qed.

(** [for i in reversed(sorted(set(to_remove))): del lst[i]] deletes exactly
    the elements at the marked positions and keeps the others in order:
    deleting from the back never shifts a position still to be deleted. *)
Theorem remove_indices_spec {A} (t : list nat) (l : list A) :
  StronglySorted lt t -> remove_indices t l = keep_unmarked t 0 l.
Proof.
  revert t. induction l as [|x l IH]; intros t Hs.
  - rewrite remove_indices_nil. reflexivity.
  - destruct t as [|a t'].
    + unfold remove_indices. simpl. rewrite keep_unmarked_nil. reflexivity.
    + inversion Hs as [|? ? Hs' Ha]; subst.
      destruct a as [|a].
      * destruct (sorted_shift t' Hs' Ha) as [E Hu].
        rewrite E, remove_indices_0.
        cbn [keep_unmarked existsb Nat.eqb orb app].
        rewrite (proj2 (keep_unmarked_shift (map pred t') 0 l)).
        apply IH; exact Hu.
      * assert (Hpos : Forall (fun j => 0 < j)%nat (S a :: t')).
        { constructor; [lia|]. eapply Forall_impl; [|exact Ha]. simpl; intros; lia. }
        destruct (sorted_shift (S a :: t') Hs Hpos) as [E Hu].
        rewrite E, remove_indices_S.
        replace (existsb (Nat.eqb 0) (map S (map pred (S a :: t')))) with false
          by (clear; induction (map pred (S a :: t')); simpl; auto).
        cbn [keep_unmarked].
        replace (existsb (Nat.eqb 0) (map S (map pred (S a :: t')))) with false
          by (clear; induction (map pred (S a :: t')); simpl; auto).
        cbn [app]. rewrite (proj1 (keep_unmarked_shift (map pred (S a :: t')) 0 l)).
        f_equal. apply IH; exact Hu.
Qed.

Lemma remove_indices_spec_witness :
  StronglySorted lt [1; 3]%nat /\
  remove_indices [1; 3]%nat [10; 11; 12; 13; 14] =
  keep_unmarked [1; 3]%nat 0 [10; 11; 12; 13; 14].
Proof.
  assert (H : StronglySorted lt [1; 3]%nat)
    by (repeat constructor; lia).
  split; [exact H|]. apply (remove_indices_spec _ _ H).
Defined.

(** *** Consequences of the invariants for every reachable state *)

(** The car never leaves the road: its x stays between the positions of
    the left and right lanes, inside [[ROAD_L, ROAD_R - CAR_W]]. *)
Theorem car_on_road w :
  reachable w ->
  (inject_Z (lane_x 0 - CAR_W / 2) <= car_x_px (ses w) <= inject_Z (lane_x 2 - CAR_W / 2) /\
   inject_Z ROAD_L <= car_x_px (ses w) /\
   car_x_px (ses w) + inject_Z CAR_W <= inject_Z ROAD_R)%Q.
Proof.
  intros Hw. destruct (reachable_inv2 w Hw) as ([H1 H2] & _).
  change (lane_x 0 - CAR_W / 2) with 160. change (lane_x 2 - CAR_W / 2) with 586.
  split; [split; assumption|].
  assert (A : (inject_Z ROAD_L <= inject_Z 160)%Q) by (rewrite <- Zle_Qle; unfold ROAD_L; lia).
  assert (B : (inject_Z 586 + inject_Z CAR_W <= inject_Z ROAD_R)%Q)
    by (rewrite <- inject_Z_plus, <- Zle_Qle; unfold CAR_W, ROAD_R; lia).
  split; lra.
Qed.

Lemma car_on_road_witness :
  reachable (dodge_run 100) /\
  (inject_Z (lane_x 0 - CAR_W / 2) <= car_x_px (ses (dodge_run 100))
     <= inject_Z (lane_x 2 - CAR_W / 2) /\
   inject_Z ROAD_L <= car_x_px (ses (dodge_run 100)) /\
   car_x_px (ses (dodge_run 100)) + inject_Z CAR_W <= inject_Z ROAD_R)%Q.
Proof.
  assert (H : reachable (dodge_run 100)) by (unfold dodge_run; apply script_reachable; lia).
  split; [exact H|]. apply (car_on_road _ H).
Defined.

(** Every particle in the list has [0 < life <= max_life] and a
    [max_life] between 25 and 50, so the fade factor
    [alpha = life / max_life] of [Particle.draw] lies in (0, 1]. *)
Theorem particles_alive w :
  reachable w ->
  Forall (fun p => 0 < life p <= max_life p /\ 25 <= max_life p <= 50) (particles (ses w)).
Proof.
  intros Hw. destruct (reachable_inv2 w Hw) as (_ & Hp & _).
  eapply Forall_impl; [|exact Hp]. unfold particle_ok. intros p Hq. lia.
Qed.

Lemma particles_alive_witness :
  reachable (crash_run 300) /\
  Forall (fun p => 0 < life p <= max_life p /\ 25 <= max_life p <= 50)
         (particles (ses (crash_run 300))).
Proof.
  assert (H : reachable (crash_run 300)) by (unfold crash_run; apply script_reachable; lia).
  split; [exact H|]. apply (particles_alive _ H).
Defined.

(** The enemies on the road: every top y lies between [-ENEMY_H] and
    [WIN_H] pixels, each enemy is at least 168 pixels above the ones
    spawned before it, and so there are never more than 5 of them: the
    [MAX_ENEMIES] cap of 12 is never reached. *)
Theorem enemy_layout w :
  reachable w ->
  Forall (fun e => - 2 * ENEMY_H <= ey e <= 2 * WIN_H) (enemies (ses w)) /\
  ForallOrdPairs (fun a b => ey b + GAP <= ey a) (enemies (ses w)) /\
  (length (enemies (ses w)) <= 5)%nat.
Proof.
  intros Hw. destruct (reachable_inv w Hw) as (_ & _ & _ & _ & _ & HU & HO & _).
  destruct (reachable_inv2 w Hw) as (_ & _ & HL & _).
  split; [|split; [exact HO|apply few_enemies; assumption]].
  apply Forall_forall. intros e He. rewrite Forall_forall in HU, HL.
  split; [apply HL|apply HU]; exact He.
Qed.

Lemma enemy_layout_witness :
  reachable (dodge_run 1000) /\
  Forall (fun e => - 2 * ENEMY_H <= ey e <= 2 * WIN_H) (enemies (ses (dodge_run 1000))) /\
  ForallOrdPairs (fun a b => ey b + GAP <= ey a) (enemies (ses (dodge_run 1000))) /\
  (length (enemies (ses (dodge_run 1000))) <= 5)%nat.
Proof.
  assert (H : reachable (dodge_run 1000)) by (unfold dodge_run; apply script_reachable; lia).
  split; [exact H|]. apply (enemy_layout _ H).
Defined.

(** The spawn countdown stays in [[1, 78]]: a new interval is
    [max(25, 70 - score // 5) + randint(-8, 8)], and, since the cap is never
    reached, the countdown is renewed on the frame it reaches 0. *)
Theorem spawn_cd_range w : reachable w -> 1 <= spawn_cd (ses w) <= 78.
Proof. intros Hw. destruct (reachable_inv2 w Hw) as (_ & _ & _ & H). exact H. Qed.

Lemma spawn_cd_range_witness :
  reachable (dodge_run 1000) /\ 1 <= spawn_cd (ses (dodge_run 1000)) <= 78.
Proof.
  assert (H : reachable (dodge_run 1000)) by (unfold dodge_run; apply script_reachable; lia).
  split; [exact H|]. apply (spawn_cd_range _ H).
Defined.

(** The car's top stays at [WIN_H - CAR_H - 24 = 492]; so an enemy can hit
    it only while its top y (in half pixels) is in [[818, 1151]], that is
    between 409 and 575.5 pixels: an enemy that hits the car has not left
    the window. *)
Theorem hit_window w :
  reachable w ->
  car_y (ses w) = 492 /\
  (forall cx x y,
     colliderect (mkRect cx (car_y (ses w)) CAR_W CAR_H)
                 (mkRect x (int_of_half y) ENEMY_W ENEMY_H) = true ->
     818 <= y <= 1151).
Proof.
  intros Hw. destruct (reachable_inv w Hw) as (Hy & _).
  split; [exact Hy|]. intros cx x y Hc.
  apply (hit_y (mkRect cx (car_y (ses w)) CAR_W CAR_H) x y); [exact Hy|reflexivity|exact Hc].
Qed.

Lemma hit_window_witness :
  reachable (init_world 640) /\
  car_y (ses (init_world 640)) = 492 /\
  (forall cx x y,
     colliderect (mkRect cx (car_y (ses (init_world 640))) CAR_W CAR_H)
                 (mkRect x (int_of_half y) ENEMY_W ENEMY_H) = true ->
     818 <= y <= 1151).
Proof.
  assert (H : reachable (init_world 640)) by constructor.
  split; [exact H|]. apply (hit_window _ H).
Defined.

(** Lives, score and speed stay in range: at most 3 lives, a non-negative
    score, and a speed between 5.0 and [MAX_SPEED] (in half pixels,
    between 10 and 36). *)
Theorem session_ranges w :
  reachable w ->
  lives (ses w) <= 3 /\ 0 <= score (ses w) /\ 10 <= enemy_spd (ses w) <= MAX_SPEED.
Proof.
  intros Hw. destruct (reachable_inv w Hw) as (_ & [_ Hl] & _ & Hs & _).
  pose proof (speed_rel_bounds _ Hs). destruct Hs. lia.
Qed.

Lemma session_ranges_witness :
  reachable (dodge_run 1000) /\
  lives (ses (dodge_run 1000)) <= 3 /\ 0 <= score (ses (dodge_run 1000)) /\
  10 <= enemy_spd (ses (dodge_run 1000)) <= MAX_SPEED.
Proof.
  assert (H : reachable (dodge_run 1000)) by (unfold dodge_run; apply script_reachable; lia).
  split; [exact H|]. apply (session_ranges _ H).
Defined.

(** *** The frame that ends the game *)

Definition timer_step (s s' : session) : Prop :=
  (game_over s' = game_over s /\ go_timer s' = go_timer s) \/
  (game_over s' = true /\ go_timer s' = FPS * 2).

Lemma loop_timer car boom es : forall n s,
  timer_step s (fst (fst (enemy_loop car boom n es s))).
Proof.
  unfold timer_step.
  induction es as [|e es IH]; intros n s; cbn [enemy_loop]; [left; auto|].
  assert (H1 : timer_step s (fst (fst (enemy_body car boom n e s)))).
  { unfold timer_step. body_cases; auto. }
  destruct (enemy_body car boom n e s) as [[s1 e'] r].
  specialize (IH (S n) s1).
  destruct (enemy_loop car boom (S n) es s1) as [[s2 es2] tr].
  unfold timer_step in H1. cbn [fst] in *.
  destruct IH as [[-> ->]|[-> ->]]; [exact H1|right; auto].
Qed.

(** The frame in which the game ends sets the restart cooldown [go_timer]
    to [FPS * 2] (two seconds), so with [cooldown_ticks] no restart can
    happen during the next 120 frames. *)
Theorem game_over_sets_timer w i :
  game_over (ses w) = false -> game_over (ses (frame w i)) = true ->
  go_timer (ses (frame w i)) = FPS * 2.
Proof.
  intros Hg Hg'. rewrite (frame_play w i Hg) in *. cbv zeta in *. simpl_ses.
  pose proof (pre_logic_fields w i) as (_ & _ & E3 & _).
  rewrite play_logic_eq in *. simpl_ses.
  set (s1 := steer (pre_logic w i) (frame_w (cam_world w i))) in *.
  pose proof (loop_timer (car_rect s1) (in_boom i) (enemies (spawn s1 i)) 0 (spawn s1 i)) as H.
  destruct (spawn_cases s1 i) as [Hf _]. unfold inv_fields_eq in Hf. simpl_ses.
  destruct Hf as (_ & _ & F3 & _).
  assert (G : game_over s1 = game_over (pre_logic w i)) by reflexivity.
  assert (T : go_timer (spawn s1 i) = go_timer s1)
    by (unfold spawn; cbv zeta; destruct (_ && _); reflexivity).
  unfold timer_step in H. destruct H as [[H1 H2]|[H1 H2]]; [|exact H2].
  congruence.
Qed.

Lemma game_over_sets_timer_witness :
  game_over (ses (crash_run 291)) = false /\
  game_over (ses (frame (crash_run 291) (script_input None 1))) = true /\
  go_timer (ses (frame (crash_run 291) (script_input None 1))) = FPS * 2.
Proof.
  assert (H1 : game_over (ses (crash_run 291)) = false) by (vm_compute; reflexivity).
  assert (H2 : game_over (ses (frame (crash_run 291) (script_input None 1))) = true)
    by (vm_compute; reflexivity).
  split; [exact H1|]. split; [exact H2|]. apply (game_over_sets_timer _ _ H1 H2).
Defined.

Lemma camera_skip_witness :
  cam_tick (frame (init_world 640) (script_input (Some 100) 1)) = cam_tick (init_world 640) + 1 /\
  ((cam_tick (init_world 640) + 1) mod CAM_SKIP <> 0 \/ in_frame (script_input (Some 100) 1) = None ->
   frame_w (frame (init_world 640) (script_input (Some 100) 1)) = frame_w (init_world 640) /\
   (is_restart (init_world 640) (script_input (Some 100) 1) = false ->
    hand_x (ses (frame (init_world 640) (script_input (Some 100) 1))) =
    hand_x (ses (init_world 640)))).
Proof. apply (camera_skip (init_world 640) (script_input (Some 100) 1)). Defined.
